(** * Case conversion: [extractWords], [convertCase] and [toCase]

    A shallow embedding of the word tokenizer and the ten-way case
    converter of the utility library, with the properties its
    specification states about them.

    JavaScript strings are sequences of UTF-16 code units; the regular
    expression of [extractWords] carries no [u] flag, so it works on code
    units as well.  A string is therefore a list of code units, each an
    [N]. *)

From Stdlib Require Import Ascii String List NArith Arith Bool Lia.
From Equations Require Import Equations.
From Equations.Prop Require Import Logic.
Import ListNotations.

(** ** Strings and values *)

Definition code_unit := N.
Definition jsstring := list code_unit.

(** A string literal of the source, as its code units. *)
Definition js (s : string) : jsstring :=
  map N_of_ascii (list_ascii_of_string s).

(** The run-time values the two functions are called with.  The declared
    parameter types are [string] and [CaseType], which are erased at run
    time, so a caller can pass any value.  [JOther shown] stands for any
    further value that is not a string (a number, a bigint, an object) and
    whose conversion to a string yields [shown].  [JSymbol description] is
    a symbol: it is not a string either, and it cannot be converted to
    one. *)
Inductive JsValue :=
| JUndefined
| JNull
| JBool (b : bool)
| JString (s : jsstring)
| JOther (shown : jsstring)
| JSymbol (description : jsstring).

(** [typeof v !== "string"] *)
Definition not_a_string (v : JsValue) : bool :=
  match v with JString _ => false | _ => true end.

(** ToString, as a template literal applies it: the string, or [None]
    when the conversion throws a [TypeError], as it does for a symbol. *)
Definition ToString (v : JsValue) : option jsstring :=
  match v with
  | JUndefined => Some (js "undefined")
  | JNull => Some (js "null")
  | JBool true => Some (js "true")
  | JBool false => Some (js "false")
  | JString s => Some s
  | JOther shown => Some shown
  | JSymbol _ => None
  end.

(** ** Character classes of the regular expression *)

Definition in_range (lo hi c : code_unit) : bool :=
  ((lo <=? c) && (c <=? hi))%N.
Arguments in_range (lo hi c)%_N.

Definition is_lower (c : code_unit) : bool := in_range 97 122 c.   (* [a-z] *)
Definition is_upper (c : code_unit) : bool := in_range 65 90 c.    (* [A-Z] *)
Definition is_digit (c : code_unit) : bool := in_range 48 57 c.    (* [0-9] *)
Definition is_letter (c : code_unit) : bool := is_lower c || is_upper c. (* [a-zA-Z] *)
Definition is_alnum (c : code_unit) : bool := is_letter c || is_digit c. (* [a-zA-Z0-9] *)
Definition not_alnum (c : code_unit) : bool := negb (is_alnum c).  (* [^a-zA-Z0-9] *)

(** ** [String.prototype.trim] *)

(** WhiteSpace and LineTerminator of ECMAScript. *)
Definition is_white (c : code_unit) : bool :=
  (in_range 9 13 c || (c =? 32) || (c =? 160) || (c =? 5760)
   || in_range 8192 8202 c || (c =? 8232) || (c =? 8233) || (c =? 8239)
   || (c =? 8287) || (c =? 12288) || (c =? 65279))%N.

Fixpoint trimStart (s : jsstring) : jsstring :=
  match s with
  | [] => []
  | c :: r => if is_white c then trimStart r else s
  end.

Definition trimEnd (s : jsstring) : jsstring := rev (trimStart (rev s)).

Definition trim (s : jsstring) : jsstring := trimEnd (trimStart s).

(** ** Case mapping

    [toLowerCase] and [toUpperCase] are the Unicode default case
    conversions.  On the Basic Latin block they are the maps below; the
    model leaves every other code unit unchanged.  [convertCase] applies
    them only to tokens of [extractWords] and to strings joined from such
    tokens, and those are Basic Latin ([extractWords_ok]). *)

Definition lower_unit (c : code_unit) : code_unit :=
  if is_upper c then (c + 32)%N else c.

Definition upper_unit (c : code_unit) : code_unit :=
  if is_lower c then (c - 32)%N else c.

Definition toLowerCase (s : jsstring) : jsstring := map lower_unit s.
Definition toUpperCase (s : jsstring) : jsstring := map upper_unit s.

(** ** The regular expression

    [/[^a-zA-Z0-9]+|(?<=[a-z])(?=[A-Z])|(?<=[A-Z])(?=[A-Z][a-z])|(?<=[a-zA-Z])(?=[0-9])|(?<=[0-9])(?=[a-zA-Z])/]
    matched at one position [q] of [s], as the sticky match of [split]
    does: the result is the end index of the match. *)

(** The code unit at index [q], if any. *)
Definition unit_at (s : jsstring) (q : nat) : option code_unit := nth_error s q.

(** [(?=[cls])] for the unit [k] places after [q]. *)
Definition lookahead (cls : code_unit -> bool) (s : jsstring) (q k : nat) : bool :=
  match unit_at s (q + k) with
  | Some c => cls c
  | None => false
  end.

(** [(?<=[cls])] at [q]: the unit before [q]. *)
Definition lookbehind (cls : code_unit -> bool) (s : jsstring) (q : nat) : bool :=
  match q with
  | 0 => false
  | S q' => match unit_at s q' with Some c => cls c | None => false end
  end.

(** Length of the longest run of [cls] units at the head of [s]. *)
Fixpoint run_length (cls : code_unit -> bool) (s : jsstring) : nat :=
  match s with
  | [] => 0
  | c :: r => if cls c then S (run_length cls r) else 0
  end.

(** [[^a-zA-Z0-9]+], greedy. *)
Definition alt_separator (s : jsstring) (q : nat) : option nat :=
  match run_length not_alnum (skipn q s) with
  | 0 => None
  | S n => Some (q + S n)
  end.

(** [(?<=[a-z])(?=[A-Z])] *)
Definition alt_camel (s : jsstring) (q : nat) : bool :=
  lookbehind is_lower s q && lookahead is_upper s q 0.

(** [(?<=[A-Z])(?=[A-Z][a-z])] *)
Definition alt_acronym (s : jsstring) (q : nat) : bool :=
  lookbehind is_upper s q && lookahead is_upper s q 0 && lookahead is_lower s q 1.

(** [(?<=[a-zA-Z])(?=[0-9])] *)
Definition alt_letter_digit (s : jsstring) (q : nat) : bool :=
  lookbehind is_letter s q && lookahead is_digit s q 0.

(** [(?<=[0-9])(?=[a-zA-Z])] *)
Definition alt_digit_letter (s : jsstring) (q : nat) : bool :=
  lookbehind is_digit s q && lookahead is_letter s q 0.

(** The four zero-width alternatives. *)
Definition alt_boundary (s : jsstring) (q : nat) : bool :=
  alt_camel s q || alt_acronym s q || alt_letter_digit s q || alt_digit_letter s q.

(** The alternatives are tried from left to right. *)
Definition regex_exec (s : jsstring) (q : nat) : option nat :=
  match alt_separator s q with
  | Some e => Some e
  | None => if alt_boundary s q then Some q else None
  end.

(** ** [String.prototype.split] with the regular expression *)

(** [s.substring(p, q)] for [p <= q]. *)
Definition substring (s : jsstring) (p q : nat) : jsstring :=
  firstn (q - p) (skipn p s).

(** The loop of [RegExp.prototype[Symbol.split]]: [p] is the start of the
    piece being collected and [q] the position where a match is tried.  A
    failed match, or an empty match at [p], moves [q] one unit on; any
    other match closes the piece [s[p..q)] and restarts at its end [e].
    The expression has no capture group, so nothing else is pushed, and
    [split] is called without a limit. *)
Equations? split_from (s : jsstring) (p q : nat) : list jsstring
  by wf (2 * (length s - q) + (if p =? q then 0 else 1)) lt :=
  split_from s p q with inspect (q <? length s) => {
    | exist _ false Hq := [substring s p (length s)];
    | exist _ true Hq with inspect (regex_exec s q) => {
      | exist _ None Hz := split_from s p (S q);
      | exist _ (Some z) Hz with inspect (Nat.min z (length s) =? p) => {
        | exist _ true He := split_from s p (S q);
        | exist _ false He :=
            substring s p q
              :: split_from s (Nat.min z (length s)) (Nat.min z (length s)) } } }.
Proof.
  all: apply Nat.ltb_lt in Hq.
  all: try (assert (q <= z)
              by (revert Hz; unfold regex_exec, alt_separator;
                  destruct (run_length not_alnum (skipn q s));
                  [destruct (alt_boundary s q) |]; intros [= <-]; lia);
            apply Nat.eqb_neq in He; rewrite Nat.eqb_refl).
  all: destruct (Nat.eqb_spec p q); try destruct (Nat.eqb_spec p (S q)); lia.
Qed.

(** [s.split(regex)]; the empty string is a case of its own. *)
Definition split (s : jsstring) : list jsstring :=
  match s with
  | [] => match regex_exec s 0 with Some _ => [] | None => [s] end
  | _ => split_from s 0 0
  end.

(** ** [extractWords] *)

Definition extractWords (input : JsValue) : list jsstring :=
  match input with
  | JString s =>
      if length (trim s) =? 0 then []
      else filter (fun word => 0 <? length (trim word)) (split s)
  | _ => []
  end.

(** ** [convertCase] *)

(** The ten members of the [CaseType] union and their string literals. *)
Inductive CaseType :=
| lowercase | uppercase | sentence | title | snake
| kebab | camel | pascal | dot | constant.

Definition caseName (ct : CaseType) : string :=
  match ct with
  | lowercase => "lowercase"
  | uppercase => "uppercase"
  | sentence => "sentence"
  | title => "title"
  | snake => "snake"
  | kebab => "kebab"
  | camel => "camel"
  | pascal => "pascal"
  | dot => "dot"
  | constant => "constant"
  end.

(** The value a caller passes for a member of the union. *)
Definition caseValue (ct : CaseType) : JsValue := JString (js (caseName ct)).

(** What a call does: it returns a string, throws [new Error(message)], or
    lets the [TypeError] of a failed string conversion escape. *)
Inductive Completion :=
| Return (s : jsstring)
| ThrowError (message : jsstring)
| ThrowTypeError.

Fixpoint string_eqb (a b : jsstring) : bool :=
  match a, b with
  | [], [] => true
  | x :: a', y :: b' => (x =? y)%N && string_eqb a' b'
  | _, _ => false
  end.

(** [v === "lit"], the test of a [case "lit":] clause. *)
Definition case_clause (v : JsValue) (lit : string) : bool :=
  match v with
  | JString s => string_eqb s (js lit)
  | _ => false
  end.

(** [words.join(sep)] *)
Fixpoint join (sep : jsstring) (words : list jsstring) : jsstring :=
  match words with
  | [] => []
  | [w] => w
  | w :: rest => w ++ sep ++ join sep rest
  end.

(** [word.charAt(0)] and [word.slice(1)] *)
Definition charAt0 (word : jsstring) : jsstring := firstn 1 word.
Definition slice1 {A} (l : list A) : list A := skipn 1 l.

(** [word.charAt(0).toUpperCase() + word.slice(1).toLowerCase()] *)
Definition capitalize (word : jsstring) : jsstring :=
  toUpperCase (charAt0 word) ++ toLowerCase (slice1 word).

(** [words[0]!]; the array is not empty where the code reads it. *)
Definition first_word (words : list jsstring) : jsstring := hd [] words.

Definition convertCase (input caseType : JsValue) : Completion :=
  if not_a_string input then Return []
  else
    let words := extractWords input in
    if length words =? 0 then Return []
    else if case_clause caseType "lowercase" then
      Return (join (js " ") (map toLowerCase words))
    else if case_clause caseType "uppercase" then
      Return (join (js " ") (map toUpperCase words))
    else if case_clause caseType "sentence" then
      let sentence := join (js " ") (map toLowerCase words) in
      Return (capitalize sentence)
    else if case_clause caseType "title" then
      Return (join (js " ") (map capitalize words))
    else if case_clause caseType "snake" then
      Return (join (js "_") (map toLowerCase words))
    else if case_clause caseType "kebab" then
      Return (join (js "-") (map toLowerCase words))
    else if case_clause caseType "camel" then
      Return (if length words =? 1 then toLowerCase (first_word words)
              else toLowerCase (first_word words)
                     ++ join (js "") (map capitalize (slice1 words)))
    else if case_clause caseType "pascal" then
      Return (join (js "") (map capitalize words))
    else if case_clause caseType "dot" then
      Return (join (js ".") (map toLowerCase words))
    else if case_clause caseType "constant" then
      Return (join (js "_") (map toUpperCase words))
    else
      match ToString caseType with
      | Some shown => ThrowError (js "Unsupported case type: " ++ shown)
      | None => ThrowTypeError
      end.

(** ** [toCase] *)

Module toCase.
Definition lower (input : JsValue) := convertCase input (JString (js "lowercase")).
Definition upper (input : JsValue) := convertCase input (JString (js "uppercase")).
Definition sentence (input : JsValue) := convertCase input (JString (js "sentence")).
Definition title (input : JsValue) := convertCase input (JString (js "title")).
Definition snake (input : JsValue) := convertCase input (JString (js "snake")).
Definition kebab (input : JsValue) := convertCase input (JString (js "kebab")).
Definition camel (input : JsValue) := convertCase input (JString (js "camel")).
Definition pascal (input : JsValue) := convertCase input (JString (js "pascal")).
Definition dot (input : JsValue) := convertCase input (JString (js "dot")).
Definition constant (input : JsValue) := convertCase input (JString (js "constant")).
End toCase.

(** ** A one-pass tokenizer

    The words of [extractWords] computed by a single scan from left to
    right: [prev] is the unit before the current position, [cur] the word
    collected so far.  It is the reference the regular-expression split is
    compared with ([extractWords_scan]). *)

Definition before (cls : code_unit -> bool) (prev : option code_unit) : bool :=
  match prev with Some c => cls c | None => false end.

Definition ahead (cls : code_unit -> bool) (rest : jsstring) (k : nat) : bool :=
  match nth_error rest k with Some c => cls c | None => false end.

(** One of the four word boundaries lies between [prev] and [rest]. *)
Definition boundary (prev : option code_unit) (rest : jsstring) : bool :=
  before is_lower prev && ahead is_upper rest 0
  || before is_upper prev && ahead is_upper rest 0 && ahead is_lower rest 1
  || before is_letter prev && ahead is_digit rest 0
  || before is_digit prev && ahead is_letter rest 0.

Definition emit (cur : jsstring) (words : list jsstring) : list jsstring :=
  match cur with [] => words | _ => cur :: words end.

Fixpoint scan (prev : option code_unit) (cur rest : jsstring) : list jsstring :=
  match rest with
  | [] => emit cur []
  | c :: rest' =>
      if is_alnum c then
        if boundary prev rest then emit cur (scan (Some c) [c] rest')
        else scan (Some c) (cur ++ [c]) rest'
      else emit cur (scan (Some c) [] rest')
  end.

(** The unit a lookbehind sees after [done]. *)
Definition last_unit (done : jsstring) : option code_unit :=
  last (map Some done) None.

(** A string of letters and digits only. *)
Abbreviation all_alnum := (Forall (fun c : code_unit => is_alnum c = true)).

(** The filter of [extractWords]. *)
Definition keep (word : jsstring) : bool := 0 <? length (trim word).

(** A word of one kind: not empty, all letters or all digits. *)
Definition word_ok (w : jsstring) : Prop :=
  w <> [] /\ (Forall (fun c => is_letter c = true) w
              \/ Forall (fun c => is_digit c = true) w).

(** The words lie in [s] one after the other, with gaps between them. *)
Inductive in_order : list jsstring -> jsstring -> Prop :=
| in_order_nil s : in_order [] s
| in_order_cons gap w ws s :
    in_order ws s -> in_order (w :: ws) (gap ++ w ++ s).

(** No word boundary inside [w] when [prev] precedes it. *)
Fixpoint solid (prev : option code_unit) (w : jsstring) : bool :=
  match w with
  | [] => true
  | c :: w' => is_alnum c && negb (boundary prev w) && solid (Some c) w'
  end.

(** [solid] for a word that is followed by [tail]: the lookahead of the
    acronym rule can reach into [tail]. *)
Fixpoint solid_in (prev : option code_unit) (w tail : jsstring) : bool :=
  match w with
  | [] => true
  | c :: w' =>
      is_alnum c && negb (boundary prev (w ++ tail)) && solid_in (Some c) w' tail
  end.

(** A word that the tokenizer gives back as it is. *)
Definition stable (w : jsstring) : bool :=
  match w with
  | [] => false
  | c :: w' => is_alnum c && solid (Some c) w'
  end.

(** The joiner of each case type, as the specification tabulates it. *)
Definition joiner (ct : CaseType) : option code_unit :=
  match ct with
  | lowercase | uppercase | sentence | title => Some 32%N
  | snake | constant => Some 95%N
  | kebab => Some 45%N
  | dot => Some 46%N
  | camel | pascal => None
  end.

(** The input has no ASCII letter or digit: it is not a string, or a
    string (empty, blank, punctuation only, ...) without one. *)
Definition no_alnum (input : JsValue) : Prop :=
  match input with
  | JString s => Forall (fun c => is_alnum c = false) s
  | _ => True
  end.

(** The value is none of the ten case types. *)
Definition unsupported (v : JsValue) : Prop := forall ct, v <> caseValue ct.

(** The string [convertCase] builds from a word sequence, case type by
    case type; [convertCase_render] relates it to the switch. *)
Definition render (ct : CaseType) (words : list jsstring) : jsstring :=
  match ct with
  | lowercase => join (js " ") (map toLowerCase words)
  | uppercase => join (js " ") (map toUpperCase words)
  | sentence => capitalize (join (js " ") (map toLowerCase words))
  | title => join (js " ") (map capitalize words)
  | snake => join (js "_") (map toLowerCase words)
  | kebab => join (js "-") (map toLowerCase words)
  | camel => toLowerCase (first_word words)
               ++ join (js "") (map capitalize (slice1 words))
  | pascal => join (js "") (map capitalize words)
  | dot => join (js ".") (map toLowerCase words)
  | constant => join (js "_") (map toUpperCase words)
  end.

(** * Properties *)

(** ** Character classes *)

Ltac unfold_classes :=
  unfold lower_unit, upper_unit, not_alnum, is_alnum, is_letter, is_lower,
    is_upper, is_digit, in_range in *.

Ltac classes :=
  unfold_classes;
  repeat match goal with
    | |- context [N.leb ?a ?b] =>
        destruct (N.leb_spec a b); simpl in *; unfold_classes
    | H : context [N.leb ?a ?b] |- _ =>
        destruct (N.leb_spec a b); simpl in *; unfold_classes
    end;
  try congruence; try lia.

Lemma lower_not_upper c : is_lower c = true -> is_upper c = false.
Proof. classes. Qed.

Lemma lower_not_digit c : is_lower c = true -> is_digit c = false.
Proof. classes. Qed.

Lemma upper_not_lower c : is_upper c = true -> is_lower c = false.
Proof. classes. Qed.

Lemma upper_not_digit c : is_upper c = true -> is_digit c = false.
Proof. classes. Qed.

Lemma digit_not_letter c : is_digit c = true -> is_letter c = false.
Proof. classes. Qed.

Lemma letter_not_digit c : is_letter c = true -> is_digit c = false.
Proof. classes. Qed.

Lemma white_not_alnum c : is_white c = true -> is_alnum c = false.
Proof.
  intros Hw.
  assert (Hr : (c <= 32 \/ 160 <= c)%N).
  { unfold is_white, in_range in Hw.
    repeat (apply orb_true_iff in Hw; destruct Hw as [Hw | Hw]);
      try (apply N.eqb_eq in Hw; lia).
    all: apply andb_true_iff in Hw; destruct Hw as [H1 H2];
      apply N.leb_le in H1; apply N.leb_le in H2; lia. }
  classes.
Qed.

Lemma lower_unit_letter c : is_letter c = true -> is_lower (lower_unit c) = true.
Proof. classes. Qed.

Lemma upper_unit_letter c : is_letter c = true -> is_upper (upper_unit c) = true.
Proof. classes. Qed.

Lemma lower_unit_digit c : is_digit c = true -> lower_unit c = c.
Proof. classes. Qed.

Lemma upper_unit_digit c : is_digit c = true -> upper_unit c = c.
Proof. classes. Qed.

Lemma lower_unit_alnum c : is_alnum c = true -> is_alnum (lower_unit c) = true.
Proof. classes. Qed.

Lemma upper_unit_alnum c : is_alnum c = true -> is_alnum (upper_unit c) = true.
Proof. classes. Qed.

Lemma lower_unit_other c : is_alnum c = false -> lower_unit c = c.
Proof. classes. Qed.

Lemma upper_unit_other c : is_alnum c = false -> upper_unit c = c.
Proof. classes. Qed.

Lemma lower_unit_idem c : lower_unit (lower_unit c) = lower_unit c.
Proof. classes. Qed.

Lemma lower_upper_unit c : lower_unit (upper_unit c) = lower_unit c.
Proof. classes. Qed.

Lemma upper_lower_unit c : upper_unit (lower_unit c) = upper_unit c.
Proof. classes. Qed.

Lemma lower_unit_not_upper c : is_upper (lower_unit c) = false.
Proof. classes. Qed.

Lemma split_from_step s p q :
  split_from s p q =
  if q <? length s then
    match regex_exec s q with
    | None => split_from s p (S q)
    | Some z =>
        let e := Nat.min z (length s) in
        if e =? p then split_from s p (S q)
        else substring s p q :: split_from s e e
    end
  else [substring s p (length s)].
Proof.
  funelim (split_from s p q); clear Heqcall;
    repeat match goal with
      | E : ?x = _ |- context [?x] => rewrite E
      end; reflexivity.
Qed.
(** ** [trim] on words and on blank strings *)

Lemma alnum_not_white c : is_alnum c = true -> is_white c = false.
Proof.
  intros Ha. destruct (is_white c) eqn:E; [|reflexivity].
  apply white_not_alnum in E. congruence.
Qed.

Lemma trimStart_alnum c r : is_alnum c = true -> trimStart (c :: r) = c :: r.
Proof. intros Ha. simpl. now rewrite (alnum_not_white c Ha). Qed.

Lemma trim_alnum w : all_alnum w -> trim w = w.
Proof.
  intros Hw. unfold trim, trimEnd.
  destruct w as [|c r]; [reflexivity|].
  rewrite trimStart_alnum by now inversion Hw.
  destruct (rev (c :: r)) as [|x l] eqn:E.
  - apply (f_equal (@rev _)) in E. rewrite rev_involutive in E. discriminate.
  - assert (Hx : In x (c :: r)) by (apply in_rev; rewrite E; now left).
    rewrite Forall_forall in Hw.
    rewrite trimStart_alnum by now apply Hw.
    rewrite <- E. apply rev_involutive.
Qed.

Lemma keep_alnum w :
  all_alnum w -> keep w = match w with [] => false | _ => true end.
Proof.
  intros Hw. unfold keep. rewrite trim_alnum by assumption.
  now destruct w.
Qed.

Lemma filter_keep_cons cur pieces :
  all_alnum cur -> filter keep (cur :: pieces) = emit cur (filter keep pieces).
Proof.
  intros Hw. simpl. rewrite keep_alnum by assumption. now destruct cur.
Qed.

Lemma trimStart_nil s :
  trimStart s = [] -> Forall (fun c => is_white c = true) s.
Proof.
  induction s as [|c r IH]; simpl; [constructor|].
  destruct (is_white c) eqn:E; [|discriminate].
  intros Hr. constructor; auto.
Qed.

Lemma trimStart_head s c r : trimStart s = c :: r -> is_white c = false.
Proof.
  induction s as [|d t IH]; simpl; [discriminate|].
  destruct (is_white d) eqn:E; [assumption|].
  now intros [= <- _].
Qed.

Lemma trim_nil s : trim s = [] -> Forall (fun c => is_white c = true) s.
Proof.
  unfold trim, trimEnd. intros H.
  apply (f_equal (@rev _)) in H. rewrite rev_involutive in H. simpl in H.
  apply trimStart_nil, Forall_rev in H. rewrite rev_involutive in H.
  destruct (trimStart s) as [|c r] eqn:E.
  - now apply trimStart_nil.
  - apply trimStart_head in E. inversion H; congruence.
Qed.

(** ** The regular expression at the end of a prefix *)

Lemma last_cons {A} (l : list A) (a d : A) : last (a :: l) d = last l a.
Proof.
  revert a d. induction l as [|b l IH]; intros a d; [reflexivity|].
  change (last (a :: b :: l) d) with (last (b :: l) d).
  now rewrite !IH.
Qed.

Lemma last_unit_snoc done c : last_unit (done ++ [c]) = Some c.
Proof. unfold last_unit. rewrite map_app. simpl. apply last_last. Qed.

Lemma last_unit_app_cons done c run :
  last_unit (done ++ c :: run) = Some (last run c).
Proof.
  revert done c. induction run as [|d run IH]; intros done c.
  - apply last_unit_snoc.
  - replace (done ++ c :: d :: run) with ((done ++ [c]) ++ d :: run)
      by now rewrite <- app_assoc.
    rewrite IH. now rewrite last_cons.
Qed.

Lemma lookbehind_app cls done rest :
  lookbehind cls (done ++ rest) (length done) = before cls (last_unit done).
Proof.
  induction done as [|x l _] using rev_ind; [reflexivity|].
  rewrite last_unit_snoc, length_app, Nat.add_1_r. simpl.
  unfold unit_at. rewrite <- app_assoc, nth_error_app2, Nat.sub_diag by lia.
  reflexivity.
Qed.

Lemma lookahead_app cls done rest k :
  lookahead cls (done ++ rest) (length done) k = ahead cls rest k.
Proof.
  unfold lookahead, ahead, unit_at. rewrite nth_error_app2 by lia.
  now replace (length done + k - length done) with k by lia.
Qed.

Lemma alt_boundary_app done rest :
  alt_boundary (done ++ rest) (length done) = boundary (last_unit done) rest.
Proof.
  unfold alt_boundary, alt_camel, alt_acronym, alt_letter_digit,
    alt_digit_letter, boundary.
  now rewrite !lookbehind_app, !lookahead_app.
Qed.

Lemma regex_exec_app done rest :
  regex_exec (done ++ rest) (length done) =
  match run_length not_alnum rest with
  | S n => Some (length done + S n)
  | 0 => if boundary (last_unit done) rest then Some (length done) else None
  end.
Proof.
  unfold regex_exec, alt_separator.
  rewrite skipn_app, skipn_all, Nat.sub_diag, alt_boundary_app. simpl.
  now destruct (run_length not_alnum rest).
Qed.

Lemma run_length_le cls s : run_length cls s <= length s.
Proof. induction s as [|c r IH]; simpl; [|destruct (cls c); simpl]; lia. Qed.

Lemma run_length_firstn cls s :
  Forall (fun c => cls c = true) (firstn (run_length cls s) s).
Proof.
  induction s as [|c r IH]; simpl; [constructor|].
  destruct (cls c) eqn:E; simpl; constructor; auto.
Qed.

Lemma substring_mid pre cur rest :
  substring (pre ++ cur ++ rest) (length pre) (length pre + length cur) = cur.
Proof.
  unfold substring.
  rewrite skipn_app, skipn_all, Nat.sub_diag. simpl.
  replace (length pre + length cur - length pre) with (length cur) by lia.
  now rewrite firstn_app, Nat.sub_diag, firstn_all, app_nil_r.
Qed.

(** ** The split loop computes the one-pass tokenizer *)

Lemma scan_separators run : forall c prev cur rest,
  is_alnum c = false ->
  Forall (fun d => not_alnum d = true) run ->
  scan prev cur (c :: run ++ rest) = emit cur (scan (Some (last run c)) [] rest).
Proof.
  induction run as [|d run IH]; intros c prev cur rest Hc Hrun.
  - simpl. now rewrite Hc.
  - inversion Hrun as [|? ? Hd Hrun']; subst.
    apply negb_true_iff in Hd.
    rewrite last_cons.
    change (scan prev cur (c :: (d :: run) ++ rest))
      with (if is_alnum c
            then if boundary prev (c :: (d :: run) ++ rest)
                 then emit cur (scan (Some c) [c] ((d :: run) ++ rest))
                 else scan (Some c) (cur ++ [c]) ((d :: run) ++ rest)
            else emit cur (scan (Some c) [] ((d :: run) ++ rest))).
    rewrite Hc. simpl app. now rewrite (IH d (Some c) [] rest Hd Hrun').
Qed.

Lemma split_from_scan n : forall s pre cur rest,
  2 * length rest + (match cur with [] => 0 | _ => 1 end) < n ->
  s = pre ++ cur ++ rest ->
  all_alnum cur ->
  filter keep (split_from s (length pre) (length pre + length cur))
  = scan (last_unit (pre ++ cur)) cur rest.
Proof.
  induction n as [|n IH]; intros s pre cur rest Hn Hs Hcur; [lia|].
  assert (Hlen : length s = length pre + length cur + length rest)
    by (subst s; rewrite !length_app; lia).
  assert (Hsub : substring s (length pre) (length pre + length cur) = cur)
    by (subst s; apply substring_mid).
  assert (IH0 : forall done rest0,
             2 * length rest0 < n -> s = done ++ rest0 ->
             filter keep (split_from s (length done) (length done))
             = scan (last_unit done) [] rest0).
  { intros done rest0 Hm Hd.
    pose proof (IH s done [] rest0) as IHd.
    simpl in IHd. rewrite (Nat.add_0_r (length done)), app_nil_r in IHd.
    apply IHd; auto; lia. }
  pose proof (regex_exec_app (pre ++ cur) rest) as Hre.
  rewrite <- app_assoc, <- Hs, length_app in Hre.
  rewrite split_from_step.
  destruct rest as [|c rest'].
  - (* the end of the string: the last piece *)
    replace (length pre + length cur <? length s) with false
      by (symmetry; apply Nat.ltb_ge; simpl in Hlen; lia).
    replace (length s) with (length pre + length cur) by (simpl in Hlen; lia).
    rewrite Hsub, filter_keep_cons by assumption. reflexivity.
  - replace (length pre + length cur <? length s) with true
      by (symmetry; apply Nat.ltb_lt; simpl in Hlen; lia).
    rewrite Hre. simpl run_length. unfold not_alnum at 1.
    destruct (is_alnum c) eqn:Hc; simpl negb; cbv iota.
    + (* a letter or digit: only a zero-width alternative can match *)
      simpl scan. rewrite Hc.
      destruct (boundary (last_unit (pre ++ cur)) (c :: rest')) eqn:Hb.
      * cbv zeta.
        rewrite Nat.min_l by (simpl in Hlen; lia).
        destruct cur as [|x cur'].
        -- replace (length pre + length [] =? length pre) with true
             by (symmetry; apply Nat.eqb_eq; simpl; lia).
           replace (S (length pre + length (@nil code_unit)))
             with (length pre + length [c]) by (simpl; lia).
           rewrite (IH s pre [c] rest'); simpl in *; try lia; auto.
           now rewrite last_unit_snoc.
        -- replace (length pre + length (x :: cur') =? length pre) with false
             by (symmetry; apply Nat.eqb_neq; simpl; lia).
           rewrite Hsub, filter_keep_cons by assumption.
           rewrite <- length_app.
           rewrite (IH0 (pre ++ x :: cur') (c :: rest')).
           ++ simpl scan. rewrite Hc, Hb. reflexivity.
           ++ simpl in *. lia.
           ++ now rewrite <- app_assoc.
      * replace (S (length pre + length cur))
          with (length pre + length (cur ++ [c]))
          by (rewrite length_app; simpl; lia).
        rewrite (IH s pre (cur ++ [c]) rest').
        -- now rewrite app_assoc, last_unit_snoc.
        -- simpl in *. destruct (cur ++ [c]); destruct cur; simpl; lia.
        -- subst s. now rewrite <- !app_assoc.
        -- apply Forall_app; split; auto.
    + (* a separator: the first alternative takes the whole run *)
      set (k := run_length not_alnum rest').
      assert (Hk : k <= length rest') by apply run_length_le.
      assert (Hrun : Forall (fun d => not_alnum d = true) (firstn k rest'))
        by apply run_length_firstn.
      cbv zeta.
      rewrite Nat.min_l by (simpl in Hlen; lia).
      replace (length pre + length cur + S k =? length pre) with false
        by (symmetry; apply Nat.eqb_neq; lia).
      rewrite Hsub, filter_keep_cons by assumption.
      set (pre' := pre ++ cur ++ c :: firstn k rest').
      replace (length pre + length cur + S k) with (length pre')
        by (unfold pre'; rewrite !length_app; simpl;
            rewrite length_firstn, Nat.min_l by lia; lia).
      rewrite (IH0 pre' (skipn k rest')).
      * rewrite <- (firstn_skipn k rest') at 2.
        rewrite scan_separators by assumption.
        unfold pre'. rewrite app_assoc, last_unit_app_cons.
        reflexivity.
      * rewrite length_skipn. simpl in *. lia.
      * subst s. unfold pre'.
        rewrite <- !app_assoc. simpl. now rewrite firstn_skipn.
Qed.

Lemma scan_nil_iff rest : forall prev cur,
  scan prev cur rest = [] <-> cur = [] /\ Forall (fun c => is_alnum c = false) rest.
Proof.
  induction rest as [|c rest IH]; intros prev cur; simpl.
  - destruct cur; simpl; split; intros H; try easy.
  - destruct (is_alnum c) eqn:Hc.
    + split.
      * destruct (boundary prev (c :: rest)).
        -- destruct cur; simpl; try discriminate.
           intros H. apply IH in H. destruct H; discriminate.
        -- intros H. apply IH in H. destruct H as [H _].
           destruct cur; discriminate.
      * intros [_ H]. inversion H; congruence.
    + destruct cur as [|x cur]; simpl.
      * rewrite IH. split; intros [H1 H2]; split; auto.
        now inversion H2.
      * split; [discriminate | intros [H _]; discriminate].
Qed.

(** [extractWords] on a string is the one-pass tokenizer. *)
Lemma extractWords_scan s : extractWords (JString s) = scan None [] s.
Proof.
  unfold extractWords.
  destruct (length (trim s) =? 0) eqn:Ht.
  - apply Nat.eqb_eq, length_zero_iff_nil, trim_nil in Ht.
    symmetry. apply scan_nil_iff. split; [reflexivity|].
    eapply Forall_impl; [|exact Ht]. apply white_not_alnum.
  - destruct s as [|c s]; [discriminate|].
    unfold split.
    apply (split_from_scan (S (2 * length (c :: s))) (c :: s) [] [] (c :: s));
      simpl; auto; lia.
Qed.

(** ** What the tokenizer returns *)

Lemma scan_words_ok rest : forall prev cur,
  cur = [] \/ (word_ok cur /\ prev = Some (last cur 0%N)) ->
  Forall word_ok (scan prev cur rest).
Proof.
  assert (Hone : forall c, is_alnum c = true -> word_ok [c]).
  { intros c Hc. split; [discriminate|].
    unfold is_alnum in Hc. apply orb_true_iff in Hc.
    destruct Hc; [left | right]; now constructor. }
  assert (Hemit : forall cur ws,
             cur = [] \/ word_ok cur -> Forall word_ok ws ->
             Forall word_ok (emit cur ws)).
  { intros [|x cur] ws H Hws; simpl; auto.
    constructor; auto. destruct H; [discriminate | assumption]. }
  induction rest as [|c rest IH]; intros prev cur Hcur.
  - simpl. apply Hemit; [tauto | constructor].
  - simpl. destruct (is_alnum c) eqn:Hc.
    + destruct (boundary prev (c :: rest)) eqn:Hb.
      * apply Hemit; [tauto|]. apply IH. right. split; auto.
      * apply IH. right. rewrite last_last. split; [|reflexivity].
        destruct Hcur as [-> | [[Hne Hkind] ->]]; [now apply Hone|].
        split; [now destruct cur|].
        assert (Hlast : In (last cur 0%N) cur).
        { destruct cur as [|x cur]; [easy|].
          destruct (exists_last (l := x :: cur)) as (l & y & ->);
            [discriminate|].
          rewrite last_last. apply in_or_app. right. now left. }
        unfold boundary, ahead in Hb. simpl in Hb.
        apply orb_false_iff in Hb. destruct Hb as [Hb Hb4].
        apply orb_false_iff in Hb. destruct Hb as [_ Hb3].
        unfold is_alnum in Hc. apply orb_true_iff in Hc.
        destruct Hkind as [Hl | Hd]; [left | right];
          apply Forall_app; split; auto; constructor; auto.
        -- rewrite Forall_forall in Hl. apply Hl in Hlast.
           destruct Hc as [Hc | Hc]; [assumption|].
           rewrite Hlast, Hc in Hb3. discriminate.
        -- rewrite Forall_forall in Hd. apply Hd in Hlast.
           destruct Hc as [Hc | Hc]; [|assumption].
           rewrite Hlast, Hc in Hb4. discriminate.
    + apply Hemit; [tauto|]. apply IH. now left.
Qed.

Lemma in_order_gap gap ws s : in_order ws s -> in_order ws (gap ++ s).
Proof.
  intros H. destruct H as [s | g w ws s H]; [constructor|].
  rewrite app_assoc. now constructor.
Qed.

Lemma scan_in_order rest : forall prev cur,
  match cur with
  | [] => in_order (scan prev cur rest) rest
  | _ => exists w ws rest',
           scan prev cur rest = (cur ++ w) :: ws
           /\ rest = w ++ rest' /\ in_order ws rest'
  end.
Proof.
  induction rest as [|c rest IH]; intros prev cur.
  - destruct cur as [|x cur]; simpl; [constructor|].
    exists [], [], []. rewrite app_nil_r. repeat split. constructor.
  - simpl. destruct (is_alnum c) eqn:Hc.
    + destruct (boundary prev (c :: rest)) eqn:Hb.
      * destruct (IH (Some c) [c]) as (w & ws & rest' & Hscan & -> & Hord).
        assert (Hnew : in_order (scan (Some c) [c] (w ++ rest'))
                         (c :: w ++ rest')).
        { rewrite Hscan.
          apply (in_order_cons [] ([c] ++ w) ws rest') in Hord.
          exact Hord. }
        destruct cur as [|x cur]; simpl; [assumption|].
        exists [], (scan (Some c) [c] (w ++ rest')), (c :: w ++ rest').
        rewrite app_nil_r. now repeat split.
      * specialize (IH (Some c) (cur ++ [c])).
        destruct (cur ++ [c]) as [|y l] eqn:E; [now destruct cur|].
        destruct IH as (w & ws & rest' & Hscan & -> & Hord).
        rewrite Hscan, <- E, <- app_assoc. simpl.
        destruct cur as [|x cur].
        -- apply (in_order_cons [] (c :: w) ws rest') in Hord.
           exact Hord.
        -- exists (c :: w), ws, rest'. now repeat split.
    + specialize (IH (Some c) []). simpl in IH.
      destruct cur as [|x cur]; simpl.
      * now apply (in_order_gap [c]).
      * exists [], (scan (Some c) [] rest), (c :: rest).
        rewrite app_nil_r. repeat split. now apply (in_order_gap [c]).
Qed.

(** ** Words the tokenizer gives back unchanged *)

Lemma not_alnum_classes c :
  is_alnum c = false ->
  is_lower c = false /\ is_upper c = false /\ is_digit c = false
  /\ is_letter c = false.
Proof.
  unfold is_alnum, is_letter. intros H.
  apply orb_false_iff in H. destruct H as [H Hd].
  pose proof H as Hl.
  apply orb_false_iff in H. destruct H as [H1 H2]. auto.
Qed.

Lemma boundary_inert prev rest :
  before is_alnum prev = false -> boundary prev rest = false.
Proof.
  intros Hp. unfold boundary.
  destruct prev as [p|]; simpl in *; [|reflexivity].
  destruct (not_alnum_classes p Hp) as (-> & -> & -> & ->). reflexivity.
Qed.

Lemma boundary_app_tail prev c w tail :
  ahead is_alnum tail 0 = false ->
  boundary prev (c :: w ++ tail) = boundary prev (c :: w).
Proof.
  intros Ht. unfold boundary.
  replace (ahead is_lower (c :: w ++ tail) 1) with (ahead is_lower (c :: w) 1);
    [reflexivity|].
  unfold ahead in *. simpl.
  destruct w as [|x w]; simpl; [|reflexivity].
  destruct tail as [|d tail]; simpl in *; [reflexivity|].
  now destruct (not_alnum_classes d Ht) as (-> & _).
Qed.

Lemma scan_solid w : forall prev cur tail,
  solid prev w = true ->
  ahead is_alnum tail 0 = false ->
  scan prev cur (w ++ tail) = scan (last (map Some w) prev) (cur ++ w) tail.
Proof.
  induction w as [|c w IH]; intros prev cur tail Hs Ht.
  - simpl. now rewrite app_nil_r.
  - simpl in Hs.
    apply andb_true_iff in Hs. destruct Hs as [Hs Hw].
    apply andb_true_iff in Hs. destruct Hs as [Hc Hb].
    apply negb_true_iff in Hb.
    change (map Some (c :: w)) with (Some c :: map Some w).
    rewrite last_cons.
    simpl app. simpl scan.
    rewrite Hc, boundary_app_tail, Hb by assumption.
    rewrite IH by assumption. now rewrite <- app_assoc.
Qed.

Lemma scan_stable w prev tail :
  stable w = true ->
  before is_alnum prev = false ->
  ahead is_alnum tail 0 = false ->
  exists p, scan prev [] (w ++ tail) = scan p w tail.
Proof.
  intros Hw Hp Ht.
  destruct w as [|c w]; [discriminate|].
  simpl in Hw. apply andb_true_iff in Hw. destruct Hw as [Hc Hs].
  simpl app. simpl scan.
  rewrite Hc, boundary_inert by assumption.
  rewrite scan_solid by assumption.
  now exists (last (map Some w) (Some c)).
Qed.

Lemma scan_cons_sep prev cur d rest :
  is_alnum d = false ->
  scan prev cur (d :: rest) = emit cur (scan (Some d) [] rest).
Proof. intros Hd. simpl. now rewrite Hd. Qed.

Lemma scan_join d ws :
  is_alnum d = false ->
  Forall (fun w => stable w = true) ws ->
  forall prev, before is_alnum prev = false ->
  scan prev [] (join [d] ws) = ws.
Proof.
  intros Hd Hws.
  induction Hws as [|w ws Hw Hws IH]; intros prev Hp; [reflexivity|].
  assert (Hne : w <> []) by (intros ->; discriminate).
  destruct ws as [|w2 ws].
  - simpl join. rewrite <- (app_nil_r w) at 1.
    destruct (scan_stable w prev [] Hw Hp eq_refl) as [p ->].
    simpl. now destruct w.
  - change (join [d] (w :: w2 :: ws)) with (w ++ d :: join [d] (w2 :: ws)).
    destruct (scan_stable w prev (d :: join [d] (w2 :: ws)) Hw Hp) as [p ->];
      [exact Hd|].
    rewrite scan_cons_sep, (IH (Some d)) by exact Hd.
    now destruct w.
Qed.

Lemma solid_lower w : forall p,
  is_letter p = true ->
  Forall (fun c => is_lower c = true) w ->
  solid (Some p) w = true.
Proof.
  induction w as [|c w IH]; intros p Hp Hw; [reflexivity|].
  inversion Hw as [|? ? Hc Hw']; subst.
  simpl. unfold boundary, ahead. simpl.
  rewrite (lower_not_upper c Hc), (lower_not_digit c Hc),
    (letter_not_digit p Hp).
  rewrite IH; auto; [|unfold is_letter; now rewrite Hc].
  unfold is_alnum, is_letter. rewrite Hc, !andb_false_r. reflexivity.
Qed.

Lemma solid_upper w : forall p,
  is_upper p = true ->
  Forall (fun c => is_upper c = true) w ->
  solid (Some p) w = true.
Proof.
  induction w as [|c w IH]; intros p Hp Hw; [reflexivity|].
  inversion Hw as [|? ? Hc Hw']; subst.
  simpl. unfold boundary, ahead. simpl.
  rewrite (upper_not_lower p Hp), (upper_not_digit c Hc),
    (upper_not_digit p Hp).
  rewrite IH by auto.
  assert (Hnext : match w with [] => false | x :: _ => is_lower x end = false).
  { destruct w as [|x w]; [reflexivity|].
    inversion Hw' as [|? ? Hx _]. now apply upper_not_lower. }
  unfold unit_at, is_alnum, is_letter.
  destruct w; simpl in *; rewrite ?Hnext, Hc, ?andb_false_r, ?orb_true_r;
    reflexivity.
Qed.

Lemma solid_digit w : forall p,
  is_digit p = true ->
  Forall (fun c => is_digit c = true) w ->
  solid (Some p) w = true.
Proof.
  induction w as [|c w IH]; intros p Hp Hw; [reflexivity|].
  inversion Hw as [|? ? Hc Hw']; subst.
  simpl. unfold boundary, ahead. simpl.
  pose proof (digit_not_letter p Hp) as Hpl.
  pose proof (digit_not_letter c Hc) as Hcl.
  pose proof Hpl as Hpl'.
  unfold is_letter in Hpl'. apply orb_false_iff in Hpl'.
  destruct Hpl' as [-> ->].
  rewrite IH by auto.
  unfold is_alnum. rewrite Hpl, Hcl, Hc, !andb_false_r. reflexivity.
Qed.

(** ** Case mapping of words *)

Lemma capitalize_cons c w : capitalize (c :: w) = upper_unit c :: toLowerCase w.
Proof. reflexivity. Qed.

Lemma toLowerCase_idem w : toLowerCase (toLowerCase w) = toLowerCase w.
Proof.
  unfold toLowerCase. rewrite map_map. apply map_ext, lower_unit_idem.
Qed.

Lemma toLowerCase_upper w : toLowerCase (toUpperCase w) = toLowerCase w.
Proof.
  unfold toLowerCase, toUpperCase. rewrite map_map.
  apply map_ext, lower_upper_unit.
Qed.

Lemma toLowerCase_capitalize w : toLowerCase (capitalize w) = toLowerCase w.
Proof.
  destruct w as [|c w]; [reflexivity|].
  rewrite capitalize_cons. simpl.
  now rewrite lower_upper_unit, toLowerCase_idem.
Qed.

Lemma capitalize_lower w : capitalize (toLowerCase w) = capitalize w.
Proof.
  destruct w as [|c w]; [reflexivity|].
  simpl toLowerCase. rewrite !capitalize_cons.
  now rewrite upper_lower_unit, toLowerCase_idem.
Qed.

Lemma capitalize_app w tail :
  w <> [] -> capitalize (w ++ tail) = capitalize w ++ toLowerCase tail.
Proof.
  destruct w as [|c w]; [easy|]. intros _.
  simpl app. rewrite !capitalize_cons.
  unfold toLowerCase. now rewrite map_app.
Qed.

Lemma digits_lower w :
  Forall (fun c => is_digit c = true) w -> toLowerCase w = w.
Proof.
  induction 1 as [|c w Hc _ IH]; [reflexivity|].
  simpl. now rewrite (lower_unit_digit c Hc), IH.
Qed.

Lemma digits_upper w :
  Forall (fun c => is_digit c = true) w -> toUpperCase w = w.
Proof.
  induction 1 as [|c w Hc _ IH]; [reflexivity|].
  simpl. now rewrite (upper_unit_digit c Hc), IH.
Qed.

Lemma letters_lower w :
  Forall (fun c => is_letter c = true) w ->
  Forall (fun c => is_lower c = true) (toLowerCase w).
Proof.
  intros H. apply Forall_map.
  eapply Forall_impl; [|exact H]. apply lower_unit_letter.
Qed.

Lemma letters_upper w :
  Forall (fun c => is_letter c = true) w ->
  Forall (fun c => is_upper c = true) (toUpperCase w).
Proof.
  intros H. apply Forall_map.
  eapply Forall_impl; [|exact H]. apply upper_unit_letter.
Qed.

Lemma word_ok_alnum w : word_ok w -> all_alnum w.
Proof.
  intros [_ [H | H]]; eapply Forall_impl; try exact H;
    intros c Hc; unfold is_alnum; rewrite Hc; auto using orb_true_r.
Qed.

Lemma stable_digits w :
  w <> [] -> Forall (fun c => is_digit c = true) w -> stable w = true.
Proof.
  destruct w as [|c w]; [easy|]. intros _ H.
  inversion H as [|? ? Hc Hw]; subst. simpl.
  rewrite solid_digit by assumption.
  unfold is_alnum. now rewrite Hc, orb_true_r.
Qed.

Lemma stable_lower w : word_ok w -> stable (toLowerCase w) = true.
Proof.
  intros [Hne [Hl | Hd]].
  - apply letters_lower in Hl.
    destruct w as [|c w]; [easy|]. simpl in *.
    inversion Hl as [|? ? Hc Hw]; subst.
    rewrite solid_lower; auto; unfold is_alnum, is_letter; now rewrite Hc.
  - rewrite digits_lower by assumption. now apply stable_digits.
Qed.

Lemma stable_upper w : word_ok w -> stable (toUpperCase w) = true.
Proof.
  intros [Hne [Hl | Hd]].
  - apply letters_upper in Hl.
    destruct w as [|c w]; [easy|]. simpl in *.
    inversion Hl as [|? ? Hc Hw]; subst.
    rewrite solid_upper; auto.
    unfold is_alnum, is_letter. now rewrite Hc, orb_true_r.
  - rewrite digits_upper by assumption. now apply stable_digits.
Qed.

Lemma stable_capitalize w : word_ok w -> stable (capitalize w) = true.
Proof.
  intros [Hne [Hl | Hd]].
  - destruct w as [|c w]; [easy|]. rewrite capitalize_cons.
    inversion Hl as [|? ? Hc Hw]; subst.
    pose proof (upper_unit_letter c Hc) as Hu.
    simpl. rewrite solid_lower.
    + unfold is_alnum, is_letter. now rewrite Hu, orb_true_r.
    + unfold is_letter. now rewrite Hu, orb_true_r.
    + now apply letters_lower.
  - destruct w as [|c w]; [easy|]. rewrite capitalize_cons.
    inversion Hd as [|? ? Hc Hw]; subst.
    rewrite (upper_unit_digit c Hc), (digits_lower w Hw).
    now apply stable_digits.
Qed.

(** ** [join] *)

Lemma join_cons2 sep w w2 ws :
  join sep (w :: w2 :: ws) = w ++ sep ++ join sep (w2 :: ws).
Proof. reflexivity. Qed.

Lemma toLowerCase_join sep ws :
  toLowerCase (join sep ws) = join (toLowerCase sep) (map toLowerCase ws).
Proof.
  induction ws as [|w ws IH]; [reflexivity|].
  destruct ws as [|w2 ws]; [reflexivity|].
  rewrite join_cons2. unfold toLowerCase at 1. rewrite !map_app.
  fold (toLowerCase w) (toLowerCase sep) (toLowerCase (join sep (w2 :: ws))).
  rewrite IH. reflexivity.
Qed.

Lemma capitalize_join sep w ws :
  w <> [] ->
  capitalize (join sep (w :: ws))
  = join (toLowerCase sep) (capitalize w :: map toLowerCase ws).
Proof.
  intros Hne. destruct ws as [|w2 ws]; [reflexivity|].
  rewrite join_cons2, capitalize_app by assumption.
  unfold toLowerCase at 1. rewrite map_app.
  fold (toLowerCase sep) (toLowerCase (join sep (w2 :: ws))).
  rewrite toLowerCase_join. reflexivity.
Qed.

Lemma join_chars (P : code_unit -> Prop) sep ws :
  Forall P sep -> Forall (Forall P) ws -> Forall P (join sep ws).
Proof.
  intros Hsep Hws.
  induction Hws as [|w ws Hw Hws IH]; [constructor|].
  destruct ws as [|w2 ws]; [exact Hw|].
  rewrite join_cons2. repeat (apply Forall_app; split); auto.
Qed.

(** ** [convertCase] case by case *)

Lemma string_eqb_eq a : forall b, string_eqb a b = true -> a = b.
Proof.
  induction a as [|x a IH]; intros [|y b]; simpl; try easy.
  intros H. apply andb_true_iff in H. destruct H as [Hx Hab].
  apply N.eqb_eq in Hx. apply IH in Hab. congruence.
Qed.

Lemma case_clause_unsupported v ct :
  unsupported v -> case_clause v (caseName ct) = false.
Proof.
  intros Hv. destruct v as [| | b | s | o | y]; try reflexivity.
  simpl. destruct (string_eqb s (js (caseName ct))) eqn:E; [|reflexivity].
  apply string_eqb_eq in E. subst s. now destruct (Hv ct).
Qed.

Lemma convertCase_render s ct :
  convertCase (JString s) (caseValue ct)
  = Return (render ct (extractWords (JString s))).
Proof.
  unfold convertCase. simpl not_a_string. cbv iota zeta.
  destruct (extractWords (JString s)) as [|w ws].
  - now destruct ct.
  - destruct ct; try reflexivity.
    destruct ws as [|w2 ws]; [|reflexivity].
    cbn. now rewrite app_nil_r.
Qed.

Lemma extractWords_ok input : Forall word_ok (extractWords input).
Proof.
  destruct input as [| | b | s | o | y]; try constructor.
  rewrite extractWords_scan. apply scan_words_ok. now left.
Qed.

Lemma joiner_not_alnum ct d : joiner ct = Some d -> is_alnum d = false.
Proof. destruct ct; intros [= <-]; reflexivity. Qed.

(** With a joiner, the output is the joined list of stable words that
    differ from the extracted ones by letter case only. *)
Lemma render_words ct d ws :
  joiner ct = Some d ->
  Forall word_ok ws ->
  exists ws',
    render ct ws = join [d] ws'
    /\ Forall (fun w => stable w = true) ws'
    /\ map toLowerCase ws' = map toLowerCase ws.
Proof.
  intros Hj Hws.
  assert (Hlow : Forall (fun w => stable w = true) (map toLowerCase ws))
    by (apply Forall_map; eapply Forall_impl; [|exact Hws]; apply stable_lower).
  assert (Hup : Forall (fun w => stable w = true) (map toUpperCase ws))
    by (apply Forall_map; eapply Forall_impl; [|exact Hws]; apply stable_upper).
  assert (Hcap : Forall (fun w => stable w = true) (map capitalize ws))
    by (apply Forall_map; eapply Forall_impl; [|exact Hws];
        apply stable_capitalize).
  assert (Elow : map toLowerCase (map toLowerCase ws) = map toLowerCase ws)
    by (rewrite map_map; apply map_ext, toLowerCase_idem).
  assert (Eup : map toLowerCase (map toUpperCase ws) = map toLowerCase ws)
    by (rewrite map_map; apply map_ext, toLowerCase_upper).
  assert (Ecap : map toLowerCase (map capitalize ws) = map toLowerCase ws)
    by (rewrite map_map; apply map_ext, toLowerCase_capitalize).
  destruct ct; try discriminate; injection Hj as <-; simpl render;
    try (exists (map toLowerCase ws); now repeat split);
    try (exists (map toUpperCase ws); now repeat split);
    try (exists (map capitalize ws); now repeat split).
  (* sentence *)
  destruct ws as [|w ws]; [now exists []|].
  inversion Hws as [|? ? Hw Hws']; subst.
  exists (capitalize w :: map toLowerCase ws).
  split; [|split].
  - simpl map. rewrite capitalize_join.
    + now rewrite capitalize_lower, map_map,
        (map_ext _ _ toLowerCase_idem).
    + destruct Hw as [Hne _]. now destruct w.
  - constructor; [now apply stable_capitalize | now inversion Hlow].
  - simpl. rewrite toLowerCase_capitalize. f_equal.
    rewrite map_map. apply map_ext, toLowerCase_idem.
Qed.

Lemma convertCase_reextract s ct d :
  joiner ct = Some d ->
  exists out,
    convertCase (JString s) (caseValue ct) = Return out
    /\ map toLowerCase (extractWords (JString out))
       = map toLowerCase (extractWords (JString s)).
Proof.
  intros Hj.
  destruct (render_words ct d (extractWords (JString s)) Hj
              (extractWords_ok _)) as (ws' & Hout & Hst & Hlow).
  exists (render ct (extractWords (JString s))). split.
  - apply convertCase_render.
  - rewrite Hout, extractWords_scan, scan_join; auto.
    now apply joiner_not_alnum with ct.
Qed.

(** The characters of the output. *)
Lemma render_chars ct ws :
  Forall (fun w => all_alnum w) ws ->
  Forall (fun c => is_alnum c = true \/ joiner ct = Some c) (render ct ws).
Proof.
  intros Hws.
  set (P j := fun c : code_unit => is_alnum c = true \/ j = Some c).
  assert (Hweak : forall j w, all_alnum w -> Forall (P j) w)
    by (intros j w Hw; eapply Forall_impl; [|exact Hw]; now left).
  assert (Hlow : forall w, all_alnum w -> all_alnum (toLowerCase w))
    by (intros w Hw; apply Forall_map; eapply Forall_impl; [|exact Hw];
        apply lower_unit_alnum).
  assert (Hup : forall w, all_alnum w -> all_alnum (toUpperCase w))
    by (intros w Hw; apply Forall_map; eapply Forall_impl; [|exact Hw];
        apply upper_unit_alnum).
  assert (Hcap : forall w, all_alnum w -> all_alnum (capitalize w)).
  { intros [|c w] Hw; [constructor|]. rewrite capitalize_cons.
    inversion Hw; subst. constructor;
      [now apply upper_unit_alnum | now apply Hlow]. }
  assert (Hjoin : forall j sep (f : jsstring -> jsstring),
             Forall (P j) sep ->
             (forall w, all_alnum w -> all_alnum (f w)) ->
             Forall (P j) (join sep (map f ws))).
  { intros j sep f Hsep Hf. apply join_chars; [assumption|].
    apply Forall_map. eapply Forall_impl; [|exact Hws].
    intros w Hw. apply Hweak, Hf, Hw. }
  assert (Hsep : forall d, Forall (P (Some d)) [d])
    by (intros d; constructor; [now right | constructor]).
  destruct ct; simpl render; simpl joiner; fold (P (Some 32%N));
    fold (P (Some 95%N)); fold (P (Some 45%N)); fold (P (Some 46%N));
    fold (P None); try (apply Hjoin; auto; constructor).
  - (* sentence: the joined string is capitalized as a whole *)
    assert (Hs : Forall (P (Some 32%N)) (join (js " ") (map toLowerCase ws)))
      by (apply Hjoin; auto; apply Hsep).
    assert (Hunit : forall f, (forall c, is_alnum c = true -> is_alnum (f c) = true) ->
                              f 32%N = 32%N ->
                              forall c, P (Some 32%N) c -> P (Some 32%N) (f c)).
    { intros f Hf H32 c [Hc | [= <-]]; [left; auto | right; now rewrite H32]. }
    destruct (join (js " ") (map toLowerCase ws)) as [|c r];
      [constructor|].
    rewrite capitalize_cons. inversion Hs; subst. constructor.
    + apply (Hunit upper_unit); auto using upper_unit_alnum.
    + apply Forall_map. eapply Forall_impl; [|eassumption].
      apply (Hunit lower_unit); auto using lower_unit_alnum.
  - (* camel *)
    apply Forall_app. split.
    + apply Hweak, Hlow. destruct ws; [constructor | now inversion Hws].
    + apply join_chars; [constructor|].
      apply Forall_map.
      assert (Hrest : Forall (fun w => all_alnum w) (slice1 ws))
        by (destruct ws; [constructor | now inversion Hws]).
      eapply Forall_impl; [|exact Hrest].
      intros w Hw. apply Hweak, Hcap, Hw.
Qed.

(** ** Sample evaluations *)

Example extractWords_blank :
  extractWords (JString (js "")) = []
  /\ extractWords (JString (js "   ")) = []
  /\ extractWords (JString (js "!!!")) = []
  /\ extractWords JUndefined = [].
Proof. repeat split. Qed.

Example extractWords_rules :
  extractWords (JString (js "myVariable snake_case 2ndEdition"))
  = [js "my"; js "Variable"; js "snake"; js "case"; js "2"; js "nd";
     js "Edition"].
Proof. reflexivity. Qed.

Example split_pieces : split (js "__ab__") = [js ""; js "ab"; js ""].
Proof. reflexivity. Qed.

Example convertCase_snake :
  convertCase (JString (js "helloWorld")) (caseValue snake)
  = Return (js "hello_world").
Proof. reflexivity. Qed.

Example convertCase_kebab :
  convertCase (JString (js "version1ToVersion2")) (caseValue kebab)
  = Return (js "version-1-to-version-2").
Proof. reflexivity. Qed.

Example convertCase_sentence :
  convertCase (JString (js "HTTPRequest failed")) (caseValue sentence)
  = Return (js "Http request failed").
Proof. reflexivity. Qed.

Example convertCase_empty :
  convertCase (JString (js "")) (caseValue pascal) = Return (js "")
  /\ convertCase (JString (js "   ")) (caseValue camel) = Return (js "")
  /\ convertCase JNull (caseValue title) = Return (js "").
Proof. repeat split. Qed.

Example convertCase_throws :
  convertCase (JString (js "test")) (JString (js "not-a-real-case"))
  = ThrowError (js "Unsupported case type: not-a-real-case")
  /\ convertCase (JString (js "test")) JUndefined
     = ThrowError (js "Unsupported case type: undefined")
  /\ convertCase (JString (js "test")) (JSymbol (js "snake")) = ThrowTypeError
  /\ convertCase (JString (js "")) (JSymbol (js "snake")) = Return (js "").
Proof. repeat split; reflexivity. Qed.

(** * The claims *)




(** C2.  When no word is extracted from the input, which is the case
    exactly when the input is not a string or is a string without an ASCII
    letter or digit (empty, blank, punctuation only), [convertCase] returns
    the empty string for every case-type value, supported or not. *)
Theorem convertCase_no_words (input caseType : JsValue) :
  (extractWords input = [] <-> no_alnum input)
  /\ (extractWords input = [] -> convertCase input caseType = Return []).
Proof.
  split.
  - destruct input as [| | b | s | o | y]; simpl no_alnum; try easy.
    rewrite extractWords_scan, scan_nil_iff. tauto.
  - intros Hw. unfold convertCase.
    destruct input as [| | b | s | o | y]; try reflexivity.
    simpl not_a_string. cbv iota zeta. now rewrite Hw.
Qed.

Lemma convertCase_no_words_witness :
  extractWords (JString (js " -- ")) = []
  /\ convertCase (JString (js " -- ")) (JString (js "not-a-real-case"))
     = Return [].
Proof.
  assert (Hw : extractWords (JString (js " -- ")) = []) by reflexivity.
  split; [exact Hw|].
  exact (proj2 (convertCase_no_words
                  (JString (js " -- ")) (JString (js "not-a-real-case"))) Hw).
Defined.

(** C3.  Every token of [extractWords s] is non-empty and made of
    characters of [A-Za-z0-9] only, and the tokens lie in [s] one after the
    other, in the order in which [extractWords] lists them. *)
Theorem extractWords_tokens (s : jsstring) :
  Forall (fun w => w <> [] /\ Forall (fun c => is_alnum c = true) w)
    (extractWords (JString s))
  /\ in_order (extractWords (JString s)) s.
Proof.
  split.
  - eapply Forall_impl; [|apply extractWords_ok].
    intros w Hw. split; [apply Hw | now apply word_ok_alnum].
  - rewrite extractWords_scan. apply (scan_in_order s None []).
Qed.

(** C4.  For the case types that keep a separator between words, the words
    extracted from the converted string are the words extracted from the
    input, up to letter case: as many, in the same order. *)
Theorem extractWords_convertCase (s : jsstring) (ct : CaseType) :
  In ct [lowercase; uppercase; sentence; title; snake; kebab; dot] ->
  exists out,
    convertCase (JString s) (caseValue ct) = Return out
    /\ map toLowerCase (extractWords (JString out))
       = map toLowerCase (extractWords (JString s)).
Proof.
  intros Hct.
  destruct (joiner ct) as [d|] eqn:Hj.
  - now apply convertCase_reextract with d.
  - simpl in Hct. destruct ct; try discriminate; intuition discriminate.
Qed.

Lemma extractWords_convertCase_witness :
  In title [lowercase; uppercase; sentence; title; snake; kebab; dot]
  /\ exists out,
       convertCase (JString (js "parseHTTPResponse v2")) (caseValue title)
       = Return out
       /\ map toLowerCase (extractWords (JString out))
          = map toLowerCase (extractWords (JString (js "parseHTTPResponse v2"))).
Proof.
  assert (Hct : In title [lowercase; uppercase; sentence; title; snake; kebab; dot])
    by (simpl; tauto).
  split; [exact Hct|].
  exact (extractWords_convertCase (js "parseHTTPResponse v2") title Hct).
Defined.

(** C5.  For snake, kebab, dot and constant, the converted string has as
    many words as the input. *)
Theorem extractWords_count (s : jsstring) (ct : CaseType) :
  In ct [snake; kebab; dot; constant] ->
  exists out,
    convertCase (JString s) (caseValue ct) = Return out
    /\ length (extractWords (JString out)) = length (extractWords (JString s)).
Proof.
  intros Hct.
  destruct (joiner ct) as [d|] eqn:Hj.
  - destruct (convertCase_reextract s ct d Hj) as (out & Hout & Hw).
    exists out. split; [exact Hout|].
    apply (f_equal (@length _)) in Hw. now rewrite !length_map in Hw.
  - simpl in Hct. destruct ct; try discriminate; intuition discriminate.
Qed.

Lemma extractWords_count_witness :
  In constant [snake; kebab; dot; constant]
  /\ exists out,
       convertCase (JString (js "version1ToVersion2")) (caseValue constant)
       = Return out
       /\ length (extractWords (JString out))
          = length (extractWords (JString (js "version1ToVersion2"))).
Proof.
  assert (Hct : In constant [snake; kebab; dot; constant]) by (simpl; tauto).
  split; [exact Hct|].
  exact (extractWords_count (js "version1ToVersion2") constant Hct).
Defined.


(** C7.  When exactly one word is extracted from the input, camel case
    returns that word with every character lower-cased and nothing
    capitalized: the output has the characters of the word, position by
    position, each letter of [A-Z] (code units 65 to 90) replaced by the
    corresponding letter of [a-z] (32 units higher) and every other
    character unchanged, so no upper-case letter is left. *)
Theorem convertCase_camel_single (input : JsValue) (w : jsstring) :
  extractWords input = [w] ->
  convertCase input (caseValue camel) = Return (toLowerCase w)
  /\ Forall (fun c => is_upper c = false) (toLowerCase w)
  /\ exists out,
       convertCase input (caseValue camel) = Return out
       /\ Forall2 (fun c d => d = if in_range 65 90 c then (c + 32)%N else c)
            w out.
Proof.
  intros Hw.
  assert (Hcall : convertCase input (caseValue camel) = Return (toLowerCase w)).
  { destruct input as [| | b | s | o | y]; try discriminate.
    rewrite convertCase_render, Hw. cbn. now rewrite app_nil_r. }
  split; [exact Hcall|]. split.
  - apply Forall_map, Forall_forall. intros c _. apply lower_unit_not_upper.
  - exists (toLowerCase w). split; [exact Hcall|].
    clear. induction w as [|c w IH]; constructor; [reflexivity | exact IH].
Qed.

Lemma convertCase_camel_single_witness :
  extractWords (JString (js "  HELLO!")) = [js "HELLO"]
  /\ convertCase (JString (js "  HELLO!")) (caseValue camel)
     = Return (js "hello")
  /\ Forall (fun c => is_upper c = false) (js "hello")
  /\ exists out,
       convertCase (JString (js "  HELLO!")) (caseValue camel) = Return out
       /\ Forall2 (fun c d => d = if in_range 65 90 c then (c + 32)%N else c)
            (js "HELLO") out.
Proof.
  assert (Hw : extractWords (JString (js "  HELLO!")) = [js "HELLO"])
    by reflexivity.
  split; [exact Hw|].
  exact (convertCase_camel_single (JString (js "  HELLO!")) (js "HELLO") Hw).
Defined.

(** C8.  For a string input and each of the ten case types, [convertCase]
    returns a string whose characters are ASCII letters, ASCII digits or
    the joiner of the case type; camel and pascal have no joiner. *)
Theorem convertCase_characters (s : jsstring) (ct : CaseType) :
  exists out,
    convertCase (JString s) (caseValue ct) = Return out
    /\ Forall (fun c => is_alnum c = true \/ joiner ct = Some c) out.
Proof.
  exists (render ct (extractWords (JString s))). split.
  - apply convertCase_render.
  - apply render_chars.
    eapply Forall_impl; [|apply extractWords_ok]. apply word_ok_alnum.
Qed.

(** C9.  Each of the ten functions of [toCase] returns what [convertCase]
    returns for the same input and the case type of that function. *)
Theorem toCase_convertCase (x : JsValue) :
  toCase.lower x = convertCase x (caseValue lowercase)
  /\ toCase.upper x = convertCase x (caseValue uppercase)
  /\ toCase.sentence x = convertCase x (caseValue sentence)
  /\ toCase.title x = convertCase x (caseValue title)
  /\ toCase.snake x = convertCase x (caseValue snake)
  /\ toCase.kebab x = convertCase x (caseValue kebab)
  /\ toCase.camel x = convertCase x (caseValue camel)
  /\ toCase.pascal x = convertCase x (caseValue pascal)
  /\ toCase.dot x = convertCase x (caseValue dot)
  /\ toCase.constant x = convertCase x (caseValue constant).
Proof. repeat split. Qed.

(** C10.  Every word of [extractWords] is of one kind: all its characters
    are ASCII letters, or all are ASCII digits. *)
Theorem extractWords_one_kind (input : JsValue) :
  Forall (fun w => Forall (fun c => is_letter c = true) w
                   \/ Forall (fun c => is_digit c = true) w)
    (extractWords input).
Proof.
  eapply Forall_impl; [|apply extractWords_ok].
  intros w [_ Hk]. exact Hk.
Qed.

(** * Further properties of the tokenizer *)

Lemma emit_app cur ws ws' : emit cur ws ++ ws' = emit cur (ws ++ ws').
Proof. now destruct cur. Qed.

Lemma concat_emit cur ws : concat (emit cur ws) = cur ++ concat ws.
Proof. now destruct cur. Qed.

Lemma scan_concat rest : forall prev cur,
  concat (scan prev cur rest) = cur ++ filter is_alnum rest.
Proof.
  induction rest as [|c rest IH]; intros prev cur; simpl.
  - apply concat_emit.
  - destruct (is_alnum c) eqn:Hc.
    + destruct (boundary prev (c :: rest)).
      * now rewrite concat_emit, IH.
      * now rewrite IH, <- app_assoc.
    + now rewrite concat_emit, IH.
Qed.

Lemma scan_inert prev rest :
  before is_alnum prev = false -> scan prev [] rest = scan None [] rest.
Proof.
  intros Hp. destruct rest as [|c rest]; [reflexivity|].
  simpl. now rewrite !boundary_inert.
Qed.

Lemma scan_app_sep a : forall prev cur d b,
  is_alnum d = false ->
  scan prev cur (a ++ d :: b) = scan prev cur a ++ scan None [] b.
Proof.
  induction a as [|c a IH]; intros prev cur d b Hd.
  - simpl app. rewrite scan_cons_sep by assumption.
    simpl scan. now rewrite emit_app, scan_inert.
  - simpl app. simpl scan.
    rewrite boundary_app_tail by exact Hd.
    destruct (is_alnum c); [destruct (boundary prev (c :: a))|];
      now rewrite ?emit_app, IH.
Qed.

Lemma scan_skip run : forall b,
  Forall (fun c => is_alnum c = false) run ->
  scan None [] (run ++ b) = scan None [] b.
Proof.
  induction run as [|d run IH]; intros b Hrun; [reflexivity|].
  inversion Hrun as [|? ? Hd Hrun']; subst.
  simpl app. rewrite scan_cons_sep by assumption.
  simpl emit. rewrite scan_inert by exact Hd. now apply IH.
Qed.

Lemma extract_app_sep a sep b :
  sep <> [] ->
  Forall (fun c => is_alnum c = false) sep ->
  extractWords (JString (a ++ sep ++ b))
  = extractWords (JString a) ++ extractWords (JString b).
Proof.
  intros Hne Hsep. rewrite !extractWords_scan.
  destruct sep as [|d run]; [easy|].
  inversion Hsep as [|? ? Hd Hrun]; subst.
  simpl app. rewrite scan_app_sep by assumption.
  now rewrite scan_skip.
Qed.

Lemma stable_single w : stable w = true -> extractWords (JString w) = [w].
Proof.
  intros Hw. rewrite extractWords_scan.
  apply (scan_join 32%N [w]); auto.
Qed.

Lemma extract_join sep ws :
  sep <> [] ->
  Forall (fun c => is_alnum c = false) sep ->
  Forall (fun w => extractWords (JString w) = [w]) ws ->
  extractWords (JString (join sep ws)) = ws.
Proof.
  intros Hne Hsep Hws.
  induction Hws as [|w ws Hw Hws IH]; [reflexivity|].
  destruct ws as [|w2 ws]; [exact Hw|].
  rewrite join_cons2, extract_app_sep, Hw, IH by assumption.
  reflexivity.
Qed.

(** Every piece of the split is made of letters and digits. *)
Lemma split_from_alnum n : forall s pre cur rest,
  2 * length rest + (match cur with [] => 0 | _ => 1 end) < n ->
  s = pre ++ cur ++ rest ->
  all_alnum cur ->
  Forall (fun piece => all_alnum piece)
    (split_from s (length pre) (length pre + length cur)).
Proof.
  induction n as [|n IH]; intros s pre cur rest Hn Hs Hcur; [lia|].
  assert (Hlen : length s = length pre + length cur + length rest)
    by (subst s; rewrite !length_app; lia).
  assert (Hsub : substring s (length pre) (length pre + length cur) = cur)
    by (subst s; apply substring_mid).
  assert (IH0 : forall done rest0,
             2 * length rest0 < n -> s = done ++ rest0 ->
             Forall (fun piece => all_alnum piece)
               (split_from s (length done) (length done))).
  { intros done rest0 Hm Hd.
    pose proof (IH s done [] rest0) as IHd.
    simpl in IHd. rewrite (Nat.add_0_r (length done)) in IHd.
    apply IHd; auto; lia. }
  pose proof (regex_exec_app (pre ++ cur) rest) as Hre.
  rewrite <- app_assoc, <- Hs, length_app in Hre.
  rewrite split_from_step.
  destruct (Nat.ltb_spec (length pre + length cur) (length s)) as [Hlt | Hge].
  - destruct rest as [|c rest']; [simpl in Hlen; lia|].
    rewrite Hre. simpl run_length. unfold not_alnum at 1.
    destruct (is_alnum c) eqn:Hc; simpl negb; cbv iota.
    + assert (Hnext : Forall (fun piece => all_alnum piece)
                        (split_from s (length pre) (S (length pre + length cur)))).
      { replace (S (length pre + length cur))
          with (length pre + length (cur ++ [c]))
          by (rewrite length_app; simpl; lia).
        apply (IH s pre (cur ++ [c]) rest').
        - simpl in *. destruct (cur ++ [c]); destruct cur; simpl; lia.
        - subst s. now rewrite <- !app_assoc.
        - apply Forall_app; split; auto. }
      destruct (boundary (last_unit (pre ++ cur)) (c :: rest'));
        [|exact Hnext].
      cbv zeta. rewrite Nat.min_l by lia.
      destruct (Nat.eqb_spec (length pre + length cur) (length pre));
        [exact Hnext|].
      rewrite Hsub. constructor; [assumption|].
      rewrite <- length_app.
      apply (IH0 (pre ++ cur) (c :: rest')).
      * destruct cur; simpl in *; lia.
      * subst s. now rewrite <- app_assoc.
    + set (k := run_length not_alnum rest').
      assert (Hk : k <= length rest') by apply run_length_le.
      cbv zeta. rewrite Nat.min_l by (simpl in Hlen; lia).
      replace (length pre + length cur + S k =? length pre) with false
        by (symmetry; apply Nat.eqb_neq; lia).
      rewrite Hsub. constructor; [assumption|].
      set (pre' := pre ++ cur ++ c :: firstn k rest').
      replace (length pre + length cur + S k) with (length pre')
        by (unfold pre'; rewrite !length_app; simpl;
            rewrite length_firstn, Nat.min_l by lia; lia).
      apply (IH0 pre' (skipn k rest')).
      * rewrite length_skipn. simpl in *. lia.
      * subst s. unfold pre'.
        rewrite <- !app_assoc. simpl. now rewrite firstn_skipn.
  - replace (length s) with (length pre + length cur) by lia.
    rewrite Hsub. now repeat constructor.
Qed.

Lemma split_alnum s : Forall (fun piece => all_alnum piece) (split s).
Proof.
  destruct s as [|c s]; [now repeat constructor|].
  unfold split.
  apply (split_from_alnum (S (2 * length (c :: s))) (c :: s) [] [] (c :: s));
    simpl; auto; lia.
Qed.

(** X1.  The regular-expression split followed by the filter computes the
    one-pass tokenizer: a left-to-right scan that closes the current word
    at every character outside [A-Za-z0-9] and at every lower-to-upper,
    acronym-to-word, letter-to-digit and digit-to-letter boundary. *)
Theorem extractWords_one_pass (s : jsstring) :
  extractWords (JString s) = scan None [] s.
Proof. apply extractWords_scan. Qed.

(** X2.  No letter or digit is lost or moved: the tokens of [s], put end
    to end, are the letters and digits of [s] in their order. *)
Theorem extractWords_concat (s : jsstring) :
  concat (extractWords (JString s)) = filter is_alnum s.
Proof. rewrite extractWords_scan. apply (scan_concat s None []). Qed.

(** X3.  A non-empty run of characters outside [A-Za-z0-9] isolates what is
    on its two sides: the words of [a ++ sep ++ b] are the words of [a]
    followed by the words of [b]. *)
Theorem extractWords_across_separator (a sep b : jsstring) :
  sep <> [] ->
  Forall (fun c => is_alnum c = false) sep ->
  extractWords (JString (a ++ sep ++ b))
  = extractWords (JString a) ++ extractWords (JString b).
Proof. apply extract_app_sep. Qed.

Lemma extractWords_across_separator_witness :
  js ", " <> []
  /\ Forall (fun c => is_alnum c = false) (js ", ")
  /\ extractWords (JString (js "fooBar" ++ js ", " ++ js "baz2"))
     = extractWords (JString (js "fooBar")) ++ extractWords (JString (js "baz2")).
Proof.
  assert (Hne : js ", " <> []) by (vm_compute; discriminate).
  assert (Hsep : Forall (fun c => is_alnum c = false) (js ", "))
    by (repeat constructor).
  split; [exact Hne|]. split; [exact Hsep|].
  exact (extractWords_across_separator (js "fooBar") (js ", ") (js "baz2") Hne Hsep).
Defined.

(** X4.  A non-empty string of lower-case letters only, of upper-case
    letters only, of digits only, or of one upper-case letter followed by
    lower-case letters, is a single word. *)
Theorem extractWords_single_kind (w : jsstring) :
  w <> [] ->
  Forall (fun c => is_lower c = true) w
  \/ Forall (fun c => is_upper c = true) w
  \/ Forall (fun c => is_digit c = true) w
  \/ (is_upper (hd 0%N w) = true
      /\ Forall (fun c => is_lower c = true) (tl w)) ->
  extractWords (JString w) = [w].
Proof.
  intros Hne Hkind. apply stable_single.
  destruct w as [|c r]; [easy|]. simpl.
  destruct Hkind as [H | [H | [H | [Hc Hr]]]].
  - inversion H as [|? ? Hc Hr]; subst.
    rewrite solid_lower; auto; unfold is_alnum, is_letter; now rewrite Hc.
  - inversion H as [|? ? Hc Hr]; subst.
    rewrite solid_upper; auto.
    unfold is_alnum, is_letter. now rewrite Hc, orb_true_r.
  - inversion H as [|? ? Hc Hr]; subst.
    rewrite solid_digit; auto. unfold is_alnum. now rewrite Hc, orb_true_r.
  - simpl in Hc, Hr.
    rewrite solid_lower; auto; unfold is_alnum, is_letter;
      now rewrite Hc, orb_true_r.
Qed.

Lemma extractWords_single_kind_witness :
  js "Request" <> []
  /\ (Forall (fun c => is_lower c = true) (js "Request")
      \/ Forall (fun c => is_upper c = true) (js "Request")
      \/ Forall (fun c => is_digit c = true) (js "Request")
      \/ (is_upper (hd 0%N (js "Request")) = true
          /\ Forall (fun c => is_lower c = true) (tl (js "Request"))))
  /\ extractWords (JString (js "Request")) = [js "Request"].
Proof.
  assert (Hne : js "Request" <> []) by (vm_compute; discriminate).
  assert (Hkind :
            Forall (fun c => is_lower c = true) (js "Request")
            \/ Forall (fun c => is_upper c = true) (js "Request")
            \/ Forall (fun c => is_digit c = true) (js "Request")
            \/ (is_upper (hd 0%N (js "Request")) = true
                /\ Forall (fun c => is_lower c = true) (tl (js "Request"))))
    by (right; right; right; split; [reflexivity | repeat constructor]).
  split; [exact Hne|]. split; [exact Hkind|].
  exact (extractWords_single_kind (js "Request") Hne Hkind).
Defined.

(** X5.  Joining and extracting is a round trip: when each string of a
    list is a single word by itself, joining the list with a non-empty
    separator made of characters outside [A-Za-z0-9] and extracting the words
    of the result gives the list back. *)
Theorem extractWords_join (sep : jsstring) (ws : list jsstring) :
  sep <> [] ->
  Forall (fun c => is_alnum c = false) sep ->
  Forall (fun w => extractWords (JString w) = [w]) ws ->
  extractWords (JString (join sep ws)) = ws.
Proof. apply extract_join. Qed.

Lemma extractWords_join_witness :
  js " - " <> []
  /\ Forall (fun c => is_alnum c = false) (js " - ")
  /\ Forall (fun w => extractWords (JString w) = [w])
       [js "alpha"; js "42"; js "BETA"]
  /\ extractWords (JString (join (js " - ") [js "alpha"; js "42"; js "BETA"]))
     = [js "alpha"; js "42"; js "BETA"].
Proof.
  assert (Hne : js " - " <> []) by (vm_compute; discriminate).
  assert (Hsep : Forall (fun c => is_alnum c = false) (js " - "))
    by (repeat constructor).
  assert (Hws : Forall (fun w => extractWords (JString w) = [w])
                  [js "alpha"; js "42"; js "BETA"])
    by (repeat constructor).
  split; [exact Hne|]. split; [exact Hsep|]. split; [exact Hws|].
  exact (extractWords_join (js " - ") [js "alpha"; js "42"; js "BETA"]
           Hne Hsep Hws).
Defined.

(** X6.  The two [trim] calls never change the result: [extractWords] of a
    string is the list of the non-empty pieces of the split, because every
    piece is made of letters and digits only and a blank string has no
    non-empty piece. *)
Theorem extractWords_pieces (s : jsstring) :
  Forall (fun piece => Forall (fun c => is_alnum c = true) piece) (split s)
  /\ extractWords (JString s)
     = filter (fun piece => negb (length piece =? 0)) (split s).
Proof.
  split; [apply split_alnum|].
  assert (Hkeep : filter (fun piece => negb (length piece =? 0)) (split s)
                  = filter keep (split s)).
  { apply filter_ext_in_iff. intros piece Hin.
    pose proof (split_alnum s) as Hall. rewrite Forall_forall in Hall.
    rewrite keep_alnum by now apply Hall. now destruct piece. }
  rewrite Hkeep, extractWords_scan.
  destruct s as [|c s]; [reflexivity|].
  unfold split. symmetry.
  apply (split_from_scan (S (2 * length (c :: s))) (c :: s) [] [] (c :: s));
    simpl; auto; lia.
Qed.

(** * Further properties of the converter *)

Lemma convertCase_empty_words input v :
  extractWords input = [] -> convertCase input v = Return [].
Proof.
  intros Hw. unfold convertCase.
  destruct input as [| | b | s | o | y]; try reflexivity.
  simpl not_a_string. cbv iota zeta. now rewrite Hw.
Qed.

Lemma convertCase_throw input v :
  extractWords input <> [] ->
  unsupported v ->
  convertCase input v
  = match ToString v with
    | Some shown => ThrowError (js "Unsupported case type: " ++ shown)
    | None => ThrowTypeError
    end.
Proof.
  intros Hw Hv.
  destruct input as [| | b | s | o | y]; try (now destruct Hw).
  unfold convertCase. simpl not_a_string. cbv iota zeta.
  destruct (extractWords (JString s)) as [|w ws]; [now destruct Hw|].
  simpl Nat.eqb. cbv iota.
  pose proof (fun ct => case_clause_unsupported v ct Hv) as Hc.
  pose proof (Hc lowercase) as H1. pose proof (Hc uppercase) as H2.
  pose proof (Hc sentence) as H3. pose proof (Hc title) as H4.
  pose proof (Hc snake) as H5. pose proof (Hc kebab) as H6.
  pose proof (Hc camel) as H7. pose proof (Hc pascal) as H8.
  pose proof (Hc dot) as H9. pose proof (Hc constant) as H10.
  cbn [caseName] in *.
  now rewrite H1, H2, H3, H4, H5, H6, H7, H8, H9, H10.
Qed.

Lemma string_eqb_refl a : string_eqb a a = true.
Proof.
  induction a as [|x a IH]; [reflexivity|].
  simpl. now rewrite N.eqb_refl, IH.
Qed.

Lemma case_value_dec v : (exists ct, v = caseValue ct) \/ unsupported v.
Proof.
  destruct v as [| | b | s | o | y];
    try (right; intros ct; destruct ct; discriminate).
  destruct (existsb (fun ct => string_eqb s (js (caseName ct)))
              [lowercase; uppercase; sentence; title; snake; kebab; camel;
               pascal; dot; constant]) eqn:E.
  - apply existsb_exists in E. destruct E as (ct & _ & Hct).
    apply string_eqb_eq in Hct. left. exists ct. now subst s.
  - right. intros ct [= ->].
    assert (Hin : existsb (fun ct0 => string_eqb (js (caseName ct)) (js (caseName ct0)))
                    [lowercase; uppercase; sentence; title; snake; kebab;
                     camel; pascal; dot; constant] = true).
    { apply existsb_exists. exists ct. split; [|apply string_eqb_refl].
      destruct ct; simpl; tauto. }
    congruence.
Qed.

Lemma toUpperCase_lower w : toUpperCase (toLowerCase w) = toUpperCase w.
Proof.
  unfold toLowerCase, toUpperCase. rewrite map_map.
  apply map_ext, upper_lower_unit.
Qed.

(** The built string depends on the words up to letter case only. *)
Lemma render_lower ct ws : render ct (map toLowerCase ws) = render ct ws.
Proof.
  assert (Elow : map toLowerCase (map toLowerCase ws) = map toLowerCase ws)
    by (rewrite map_map; apply map_ext, toLowerCase_idem).
  assert (Eup : map toUpperCase (map toLowerCase ws) = map toUpperCase ws)
    by (rewrite map_map; apply map_ext, toUpperCase_lower).
  assert (Ecap : map capitalize (map toLowerCase ws) = map capitalize ws)
    by (rewrite map_map; apply map_ext, capitalize_lower).
  destruct ct; simpl render; rewrite ?Elow, ?Eup, ?Ecap; try reflexivity.
  destruct ws as [|w ws]; [reflexivity|].
  unfold first_word, slice1. simpl.
  rewrite toLowerCase_idem. do 2 f_equal.
  rewrite map_map. apply map_ext, capitalize_lower.
Qed.

Lemma convert_case_insensitive a b v :
  map toLowerCase (extractWords a) = map toLowerCase (extractWords b) ->
  convertCase a v = convertCase b v.
Proof.
  intros Hab.
  destruct (extractWords a) as [|wa wsa] eqn:Ea.
  - destruct (extractWords b) as [|wb wsb] eqn:Eb; [|discriminate].
    now rewrite !convertCase_empty_words.
  - destruct (extractWords b) as [|wb wsb] eqn:Eb; [discriminate|].
    destruct a as [| | ? | sa | ? | ?]; try discriminate.
    destruct b as [| | ? | sb | ? | ?]; try discriminate.
    destruct (case_value_dec v) as [[ct ->] | Hv].
    + rewrite !convertCase_render, Ea, Eb.
      rewrite <- (render_lower ct (wa :: wsa)), <- (render_lower ct (wb :: wsb)).
      now rewrite Hab.
    + rewrite !convertCase_throw; auto; congruence.
Qed.

Lemma stable_alnum w : stable w = true -> all_alnum w.
Proof.
  assert (Hs : forall r p, solid p r = true -> all_alnum r).
  { induction r as [|c r IH]; intros p H; [constructor|].
    simpl in H. apply andb_true_iff in H. destruct H as [H Hr].
    apply andb_true_iff in H. destruct H as [Hc _].
    constructor; eauto. }
  destruct w as [|c r]; [discriminate|]. simpl. intros H.
  apply andb_true_iff in H. destruct H as [Hc Hr].
  constructor; eauto.
Qed.

Lemma filter_alnum_id w : all_alnum w -> filter is_alnum w = w.
Proof.
  induction 1 as [|c w Hc _ IH]; [reflexivity|].
  simpl. now rewrite Hc, IH.
Qed.

Lemma filter_alnum_none sep :
  Forall (fun c => is_alnum c = false) sep -> filter is_alnum sep = [].
Proof.
  induction 1 as [|c w Hc _ IH]; [reflexivity|].
  simpl. now rewrite Hc, IH.
Qed.

Lemma filter_join sep ws :
  Forall (fun c => is_alnum c = false) sep ->
  Forall (fun w => all_alnum w) ws ->
  filter is_alnum (join sep ws) = concat ws.
Proof.
  intros Hsep Hws.
  induction Hws as [|w ws Hw Hws IH]; [reflexivity|].
  destruct ws as [|w2 ws].
  - simpl. now rewrite app_nil_r, filter_alnum_id.
  - rewrite join_cons2, !filter_app.
    rewrite filter_alnum_id, filter_alnum_none by assumption.
    change (concat (w :: w2 :: ws)) with (w ++ concat (w2 :: ws)).
    f_equal. exact IH.
Qed.

Lemma toLowerCase_concat ws :
  toLowerCase (concat ws) = concat (map toLowerCase ws).
Proof. unfold toLowerCase. apply concat_map. Qed.

Lemma join_nil_cons w ws : join [] (w :: ws) = w ++ join [] ws.
Proof. destruct ws; [now rewrite app_nil_r | reflexivity]. Qed.

Lemma join_nil ws : join [] ws = concat ws.
Proof.
  induction ws as [|w ws IH]; [reflexivity|].
  now rewrite join_nil_cons, IH.
Qed.

Lemma alnum_lower w : all_alnum w -> all_alnum (toLowerCase w).
Proof.
  intros Hw. apply Forall_map. eapply Forall_impl; [|exact Hw].
  apply lower_unit_alnum.
Qed.

Lemma alnum_capitalize w : all_alnum w -> all_alnum (capitalize w).
Proof.
  intros Hw. destruct w as [|c w]; [constructor|].
  rewrite capitalize_cons. inversion Hw; subst.
  constructor; [now apply upper_unit_alnum | now apply alnum_lower].
Qed.

Lemma upper_unit_not_lower c : is_lower (upper_unit c) = false.
Proof. classes. Qed.

Lemma render_alnum ct ws :
  Forall word_ok ws ->
  toLowerCase (filter is_alnum (render ct ws)) = toLowerCase (concat ws).
Proof.
  intros Hws.
  assert (Hal : Forall (fun w => all_alnum w) ws)
    by (eapply Forall_impl; [|exact Hws]; apply word_ok_alnum).
  assert (Hcap : Forall (fun w => all_alnum w) (map capitalize ws))
    by (apply Forall_map; eapply Forall_impl; [|exact Hal];
        apply alnum_capitalize).
  assert (Ecap : map toLowerCase (map capitalize ws) = map toLowerCase ws)
    by (rewrite map_map; apply map_ext, toLowerCase_capitalize).
  destruct (joiner ct) as [d|] eqn:Hj.
  - destruct (render_words ct d ws Hj Hws) as (ws' & -> & Hst & Hlow).
    rewrite filter_join.
    + now rewrite !toLowerCase_concat, Hlow.
    + constructor; [now apply joiner_not_alnum with ct | constructor].
    + eapply Forall_impl; [|exact Hst]. apply stable_alnum.
  - destruct ct; try discriminate; simpl render;
      change (js "") with (@nil code_unit).
    + (* camel *)
      destruct ws as [|w ws]; [reflexivity|].
      unfold first_word, slice1. simpl hd. simpl skipn.
      rewrite <- join_nil_cons, filter_join.
      * rewrite !toLowerCase_concat. simpl map.
        rewrite toLowerCase_idem. do 2 f_equal.
        rewrite map_map. apply map_ext, toLowerCase_capitalize.
      * constructor.
      * inversion Hal; subst. inversion Hcap; subst.
        constructor; [now apply alnum_lower | assumption].
    + (* pascal *)
      rewrite filter_join by (auto; constructor).
      now rewrite !toLowerCase_concat, Ecap.
Qed.

(** X7.  The conversion depends on the input through its words up to
    letter case only: two inputs whose word sequences are equal after
    lower-casing give the same result, for every case-type value. *)
Theorem convertCase_case_insensitive (a b caseType : JsValue) :
  map toLowerCase (extractWords a) = map toLowerCase (extractWords b) ->
  convertCase a caseType = convertCase b caseType.
Proof. apply convert_case_insensitive. Qed.

Lemma convertCase_case_insensitive_witness :
  map toLowerCase (extractWords (JString (js "HELLO big-World")))
  = map toLowerCase (extractWords (JString (js "helloBig_world")))
  /\ convertCase (JString (js "HELLO big-World")) (caseValue camel)
     = convertCase (JString (js "helloBig_world")) (caseValue camel).
Proof.
  assert (Hw : map toLowerCase (extractWords (JString (js "HELLO big-World")))
               = map toLowerCase (extractWords (JString (js "helloBig_world"))))
    by reflexivity.
  split; [exact Hw|].
  exact (convertCase_case_insensitive (JString (js "HELLO big-World"))
           (JString (js "helloBig_world")) (caseValue camel) Hw).
Defined.

(** X8.  Conversions compose: converting to a case type that has a joiner
    and converting the result again, to any case-type value, is the same
    as converting the input directly.  With the same case type twice, this
    says that these eight conversions are idempotent. *)
Theorem convertCase_compose (s : jsstring) (ct : CaseType) (caseType : JsValue) :
  In ct [lowercase; uppercase; sentence; title; snake; kebab; dot; constant] ->
  exists out,
    convertCase (JString s) (caseValue ct) = Return out
    /\ convertCase (JString out) caseType = convertCase (JString s) caseType.
Proof.
  intros Hct.
  destruct (joiner ct) as [d|] eqn:Hj.
  - destruct (convertCase_reextract s ct d Hj) as (out & Hout & Hw).
    exists out. split; [exact Hout|].
    now apply convert_case_insensitive.
  - simpl in Hct. destruct ct; try discriminate; intuition discriminate.
Qed.

Lemma convertCase_compose_witness :
  In title [lowercase; uppercase; sentence; title; snake; kebab; dot; constant]
  /\ exists out,
       convertCase (JString (js "parseHTTPResponse v2")) (caseValue title)
       = Return out
       /\ convertCase (JString out) (caseValue camel)
          = convertCase (JString (js "parseHTTPResponse v2")) (caseValue camel).
Proof.
  assert (Hct : In title [lowercase; uppercase; sentence; title; snake; kebab;
                          dot; constant]) by (simpl; tauto).
  split; [exact Hct|].
  exact (convertCase_compose (js "parseHTTPResponse v2") title
           (caseValue camel) Hct).
Defined.

(** X9.  No conversion drops, adds or reorders a letter or a digit: for
    each of the ten case types, the letters and digits of the output are
    those of the input, in the same order, up to letter case. *)
Theorem convertCase_keeps_alnum (s : jsstring) (ct : CaseType) :
  exists out,
    convertCase (JString s) (caseValue ct) = Return out
    /\ toLowerCase (filter is_alnum out) = toLowerCase (filter is_alnum s).
Proof.
  exists (render ct (extractWords (JString s))). split.
  - apply convertCase_render.
  - rewrite render_alnum by apply extractWords_ok.
    f_equal. rewrite extractWords_scan. apply (scan_concat s None []).
Qed.

(** X10.  The lower-case conversions leave no upper-case letter: the
    output of lowercase, snake, kebab and dot has no character of [A-Z]. *)
Theorem convertCase_no_upper (s : jsstring) (ct : CaseType) :
  In ct [lowercase; snake; kebab; dot] ->
  exists out,
    convertCase (JString s) (caseValue ct) = Return out
    /\ Forall (fun c => is_upper c = false) out.
Proof.
  intros Hct.
  exists (render ct (extractWords (JString s))).
  split; [apply convertCase_render|].
  assert (Hlow : Forall (Forall (fun c => is_upper c = false))
                   (map toLowerCase (extractWords (JString s)))).
  { apply Forall_map, Forall_forall. intros w _.
    apply Forall_map, Forall_forall. intros c _. apply lower_unit_not_upper. }
  simpl in Hct.
  destruct Hct as [<- | [<- | [<- | [<- | []]]]]; simpl render;
    apply join_chars; auto; now repeat constructor.
Qed.

Lemma convertCase_no_upper_witness :
  In snake [lowercase; snake; kebab; dot]
  /\ exists out,
       convertCase (JString (js "XMLHttpRequest")) (caseValue snake) = Return out
       /\ Forall (fun c => is_upper c = false) out.
Proof.
  assert (Hct : In snake [lowercase; snake; kebab; dot]) by (simpl; tauto).
  split; [exact Hct|].
  exact (convertCase_no_upper (js "XMLHttpRequest") snake Hct).
Defined.

(** X11.  The upper-case conversions leave no lower-case letter: the
    output of uppercase and constant has no character of [a-z]. *)
Theorem convertCase_no_lower (s : jsstring) (ct : CaseType) :
  In ct [uppercase; constant] ->
  exists out,
    convertCase (JString s) (caseValue ct) = Return out
    /\ Forall (fun c => is_lower c = false) out.
Proof.
  intros Hct.
  exists (render ct (extractWords (JString s))).
  split; [apply convertCase_render|].
  assert (Hup : Forall (Forall (fun c => is_lower c = false))
                  (map toUpperCase (extractWords (JString s)))).
  { apply Forall_map, Forall_forall. intros w _.
    apply Forall_map, Forall_forall. intros c _. apply upper_unit_not_lower. }
  simpl in Hct.
  destruct Hct as [<- | [<- | []]]; simpl render;
    apply join_chars; auto; now repeat constructor.
Qed.

Lemma convertCase_no_lower_witness :
  In constant [uppercase; constant]
  /\ exists out,
       convertCase (JString (js "maxRetryCount2")) (caseValue constant)
       = Return out
       /\ Forall (fun c => is_lower c = false) out.
Proof.
  assert (Hct : In constant [uppercase; constant]) by (simpl; tauto).
  split; [exact Hct|].
  exact (convertCase_no_lower (js "maxRetryCount2") constant Hct).
Defined.

Lemma toUpperCase_join sep ws :
  toUpperCase (join sep ws) = join (toUpperCase sep) (map toUpperCase ws).
Proof.
  induction ws as [|w ws IH]; [reflexivity|].
  destruct ws as [|w2 ws]; [reflexivity|].
  rewrite join_cons2. unfold toUpperCase at 1. rewrite !map_app.
  fold (toUpperCase w) (toUpperCase sep) (toUpperCase (join sep (w2 :: ws))).
  rewrite IH. reflexivity.
Qed.

Lemma map_join (f : code_unit -> code_unit) sep ws :
  map f (join sep ws) = join (map f sep) (map (map f) ws).
Proof.
  induction ws as [|w ws IH]; [reflexivity|].
  destruct ws as [|w2 ws]; [reflexivity|].
  rewrite join_cons2, !map_app, IH. reflexivity.
Qed.

Lemma filter_join_words (P : code_unit -> bool) sep ws :
  filter P sep = [] ->
  Forall (fun w => filter P w = w) ws ->
  filter P (join sep ws) = concat ws.
Proof.
  intros Hsep Hws.
  induction Hws as [|w ws Hw Hws IH]; [reflexivity|].
  destruct ws as [|w2 ws].
  - simpl. now rewrite app_nil_r.
  - rewrite join_cons2, !filter_app, Hw, Hsep.
    change (concat (w :: w2 :: ws)) with (w ++ concat (w2 :: ws)).
    f_equal. exact IH.
Qed.

Lemma alnum_not_joiner c (d : code_unit) :
  is_alnum c = true -> is_alnum d = false -> (c =? d)%N = false.
Proof.
  intros Hc Hd. destruct (N.eqb_spec c d); [congruence | reflexivity].
Qed.

(** X12.  Pascal case is camel case with its first character upper-cased,
    and camel case is pascal case with its first character lower-cased. *)
Theorem convertCase_camel_pascal (s : jsstring) :
  exists c p,
    convertCase (JString s) (caseValue camel) = Return c
    /\ convertCase (JString s) (caseValue pascal) = Return p
    /\ p = toUpperCase (charAt0 c) ++ slice1 c
    /\ c = toLowerCase (charAt0 p) ++ slice1 p.
Proof.
  exists (render camel (extractWords (JString s))),
         (render pascal (extractWords (JString s))).
  split; [apply convertCase_render|]. split; [apply convertCase_render|].
  pose proof (extractWords_ok (JString s)) as Hws.
  destruct (extractWords (JString s)) as [|w ws]; [now split|].
  inversion Hws as [|? ? [Hne _] _]; subst.
  destruct w as [|x t]; [easy|].
  assert (Hc : render camel ((x :: t) :: ws)
               = lower_unit x :: toLowerCase t ++ join [] (map capitalize ws))
    by reflexivity.
  assert (Hp : render pascal ((x :: t) :: ws)
               = upper_unit x :: toLowerCase t ++ join [] (map capitalize ws)).
  { unfold render. change (js "") with (@nil code_unit).
    change (map capitalize ((x :: t) :: ws))
      with (capitalize (x :: t) :: map capitalize ws).
    now rewrite join_nil_cons, capitalize_cons. }
  enough (Hrel : forall c p tail,
             c = lower_unit x :: tail -> p = upper_unit x :: tail ->
             p = toUpperCase (charAt0 c) ++ slice1 c
             /\ c = toLowerCase (charAt0 p) ++ slice1 p)
    by (apply (Hrel _ _ _ Hc Hp)).
  intros c p tail -> ->. simpl.
  now rewrite upper_lower_unit, lower_upper_unit.
Qed.

(** X13.  With a joiner, the output is in normal form: it is its own words
    joined by single joiners, so it neither starts nor ends with the joiner
    and never has two joiners in a row. *)
Theorem convertCase_canonical (s : jsstring) (ct : CaseType) :
  In ct [lowercase; uppercase; sentence; title; snake; kebab; dot; constant] ->
  exists d out,
    joiner ct = Some d
    /\ convertCase (JString s) (caseValue ct) = Return out
    /\ out = join [d] (extractWords (JString out)).
Proof.
  intros Hct.
  destruct (joiner ct) as [d|] eqn:Hj.
  - destruct (render_words ct d (extractWords (JString s)) Hj
                (extractWords_ok _)) as (ws' & Hout & Hst & _).
    exists d, (render ct (extractWords (JString s))).
    split; [reflexivity|]. split; [apply convertCase_render|].
    rewrite Hout. f_equal. symmetry.
    rewrite extractWords_scan. apply scan_join; auto.
    now apply joiner_not_alnum with ct.
  - simpl in Hct. destruct ct; try discriminate; intuition discriminate.
Qed.

Lemma convertCase_canonical_witness :
  In kebab [lowercase; uppercase; sentence; title; snake; kebab; dot; constant]
  /\ exists d out,
       joiner kebab = Some d
       /\ convertCase (JString (js "__fooBar--baz__")) (caseValue kebab)
          = Return out
       /\ out = join [d] (extractWords (JString out)).
Proof.
  assert (Hct : In kebab [lowercase; uppercase; sentence; title; snake; kebab;
                          dot; constant]) by (simpl; tauto).
  split; [exact Hct|].
  exact (convertCase_canonical (js "__fooBar--baz__") kebab Hct).
Defined.

(** X14.  The upper-case outputs are the lower-case ones upper-cased, and
    conversely: uppercase against lowercase, constant against snake. *)
Theorem convertCase_upper_lower (s : jsstring) :
  exists lo up sn co,
    convertCase (JString s) (caseValue lowercase) = Return lo
    /\ convertCase (JString s) (caseValue uppercase) = Return up
    /\ convertCase (JString s) (caseValue snake) = Return sn
    /\ convertCase (JString s) (caseValue constant) = Return co
    /\ up = toUpperCase lo /\ lo = toLowerCase up
    /\ co = toUpperCase sn /\ sn = toLowerCase co.
Proof.
  set (ws := extractWords (JString s)).
  exists (render lowercase ws), (render uppercase ws),
         (render snake ws), (render constant ws).
  repeat (split; [apply convertCase_render|]).
  assert (Eup : map toUpperCase (map toLowerCase ws) = map toUpperCase ws)
    by (rewrite map_map; apply map_ext, toUpperCase_lower).
  assert (Elow : map toLowerCase (map toUpperCase ws) = map toLowerCase ws)
    by (rewrite map_map; apply map_ext, toLowerCase_upper).
  simpl render.
  rewrite !toUpperCase_join, !toLowerCase_join, Eup, Elow.
  now repeat split.
Qed.

(** X15.  The outputs of snake, kebab, dot and lowercase are the same
    string up to the joiner, and pascal is title without its spaces. *)
Theorem convertCase_joiners (s : jsstring) :
  exists sn ke dt lo ti pa,
    convertCase (JString s) (caseValue snake) = Return sn
    /\ convertCase (JString s) (caseValue kebab) = Return ke
    /\ convertCase (JString s) (caseValue dot) = Return dt
    /\ convertCase (JString s) (caseValue lowercase) = Return lo
    /\ convertCase (JString s) (caseValue title) = Return ti
    /\ convertCase (JString s) (caseValue pascal) = Return pa
    /\ ke = map (fun c => if (c =? 95)%N then 45%N else c) sn
    /\ dt = map (fun c => if (c =? 95)%N then 46%N else c) sn
    /\ lo = map (fun c => if (c =? 95)%N then 32%N else c) sn
    /\ pa = filter (fun c => negb (c =? 32)%N) ti.
Proof.
  set (ws := extractWords (JString s)).
  exists (render snake ws), (render kebab ws), (render dot ws),
         (render lowercase ws), (render title ws), (render pascal ws).
  repeat (split; [apply convertCase_render|]).
  assert (Hal : Forall (fun w => all_alnum w) ws)
    by (eapply Forall_impl; [|apply extractWords_ok]; apply word_ok_alnum).
  assert (Hswap : forall d,
             map (map (fun c => if (c =? 95)%N then d else c))
               (map toLowerCase ws) = map toLowerCase ws).
  { intros d. rewrite <- (map_id (map toLowerCase ws)) at 2.
    apply map_ext_in. intros w Hin.
    apply in_map_iff in Hin. destruct Hin as (w0 & <- & Hin0).
    rewrite Forall_forall in Hal.
    pose proof (alnum_lower w0 (Hal w0 Hin0)) as Hw.
    rewrite <- (map_id (toLowerCase w0)) at 2.
    apply map_ext_in. intros c Hc.
    rewrite Forall_forall in Hw.
    now rewrite (alnum_not_joiner c 95%N (Hw c Hc)). }
  simpl render. rewrite !map_join, !Hswap.
  repeat (split; [reflexivity|]).
  change (js "") with (@nil code_unit). rewrite join_nil.
  symmetry. apply filter_join_words; [reflexivity|].
  apply Forall_map. eapply Forall_impl; [|exact Hal].
  intros w Hw. apply alnum_capitalize in Hw.
  apply forallb_filter_id, forallb_forall. intros c Hc.
  rewrite Forall_forall in Hw.
  now rewrite (alnum_not_joiner c 32%N (Hw c Hc)).
Qed.

(** ** Which separator is used does not matter *)

Section SeparatorRenaming.

Variable f : code_unit -> code_unit.
Hypothesis f_alnum : forall c, is_alnum c = true -> f c = c.
Hypothesis f_other : forall c, is_alnum c = false -> is_alnum (f c) = false.

Lemma class_renamed (cls : code_unit -> bool) :
  (forall c, cls c = true -> is_alnum c = true) ->
  forall c, cls (f c) = cls c.
Proof using f_alnum f_other.
  intros Hsub c. destruct (is_alnum c) eqn:Hc.
  - now rewrite f_alnum.
  - pose proof (f_other c Hc) as Hfc.
    destruct (cls c) eqn:E1; [apply Hsub in E1; congruence|].
    destruct (cls (f c)) eqn:E2; [apply Hsub in E2; congruence|].
    reflexivity.
Qed.

Lemma lower_renamed c : is_lower (f c) = is_lower c.
Proof using f_alnum f_other.
  apply class_renamed. unfold is_alnum, is_letter. now intros ? ->.
Qed.

Lemma upper_renamed c : is_upper (f c) = is_upper c.
Proof using f_alnum f_other.
  apply class_renamed. unfold is_alnum, is_letter.
  intros ? ->. now rewrite orb_true_r.
Qed.

Lemma digit_renamed c : is_digit (f c) = is_digit c.
Proof using f_alnum f_other.
  apply class_renamed. unfold is_alnum. intros ? ->. now rewrite orb_true_r.
Qed.

Lemma letter_renamed c : is_letter (f c) = is_letter c.
Proof using f_alnum f_other.
  unfold is_letter. now rewrite lower_renamed, upper_renamed.
Qed.

Lemma alnum_renamed c : is_alnum (f c) = is_alnum c.
Proof using f_alnum f_other.
  unfold is_alnum. now rewrite letter_renamed, digit_renamed.
Qed.

Lemma boundary_renamed prev rest :
  boundary (option_map f prev) (map f rest) = boundary prev rest.
Proof using f_alnum f_other.
  unfold boundary, before, ahead. rewrite !nth_error_map.
  destruct prev as [p|]; destruct (nth_error rest 0) as [c0|];
    destruct (nth_error rest 1) as [c1|]; simpl;
    now rewrite ?lower_renamed, ?upper_renamed, ?digit_renamed,
      ?letter_renamed.
Qed.

Lemma scan_renamed rest : forall prev cur,
  scan (option_map f prev) cur (map f rest) = scan prev cur rest.
Proof using f_alnum f_other.
  induction rest as [|c rest IH]; intros prev cur; [reflexivity|].
  change (map f (c :: rest)) with (f c :: map f rest).
  simpl scan.
  change (f c :: map f rest) with (map f (c :: rest)).
  rewrite boundary_renamed, alnum_renamed.
  destruct (is_alnum c) eqn:Hc.
  - rewrite (f_alnum c Hc).
    now rewrite <- !(IH (Some c)); simpl; rewrite (f_alnum c Hc).
  - now rewrite <- (IH (Some c)).
Qed.

(** X16.  Which characters separate the words does not matter: replacing
    every character outside [A-Za-z0-9] by another such character, and
    leaving letters and digits as they are, does not change the words. *)
Theorem extractWords_separators_renamed (s : jsstring) :
  extractWords (JString (map f s)) = extractWords (JString s).
Proof using f_alnum f_other.
  rewrite !extractWords_scan. apply (scan_renamed s None []).
Qed.

End SeparatorRenaming.

Lemma extractWords_separators_renamed_witness :
  (forall c, is_alnum c = true -> (if is_alnum c then c else 45%N) = c)
  /\ (forall c, is_alnum c = false ->
                is_alnum (if is_alnum c then c else 45%N) = false)
  /\ extractWords
       (JString (map (fun c => if is_alnum c then c else 45%N)
                   (js "foo_bar baz.qux")))
     = extractWords (JString (js "foo_bar baz.qux")).
Proof.
  assert (H1 : forall c, is_alnum c = true ->
                         (if is_alnum c then c else 45%N) = c)
    by (intros c Hc; rewrite Hc; reflexivity).
  assert (H2 : forall c, is_alnum c = false ->
                         is_alnum (if is_alnum c then c else 45%N) = false)
    by (intros c Hc; rewrite Hc; reflexivity).
  split; [exact H1|]. split; [exact H2|].
  exact (extractWords_separators_renamed
           (fun c => if is_alnum c then c else 45%N) H1 H2
           (js "foo_bar baz.qux")).
Defined.

(** X17.  Sentence case has at most one upper-case letter, its first
    character: the first character of the output is not a lower-case
    letter and no later character is an upper-case letter. *)
Theorem convertCase_sentence_shape (s : jsstring) :
  exists out,
    convertCase (JString s) (caseValue sentence) = Return out
    /\ Forall (fun c => is_lower c = false) (charAt0 out)
    /\ Forall (fun c => is_upper c = false) (slice1 out).
Proof.
  exists (render sentence (extractWords (JString s))).
  split; [apply convertCase_render|].
  unfold render.
  destruct (join (js " ") (map toLowerCase (extractWords (JString s))))
    as [|c r]; [now split; constructor|].
  rewrite capitalize_cons. split.
  - repeat constructor. apply upper_unit_not_lower.
  - apply Forall_map, Forall_forall. intros x _. apply lower_unit_not_upper.
Qed.

(** ** Tokens are atomic *)

Lemma boundary_two prev c rest :
  boundary prev (c :: rest) = boundary prev (c :: firstn 1 rest).
Proof. unfold boundary, ahead. now destruct rest. Qed.

Lemma boundary_mono prev c w tail :
  boundary prev (c :: w) = true -> boundary prev (c :: w ++ tail) = true.
Proof.
  destruct w as [|x w]; [|now rewrite boundary_two, (boundary_two _ _ (_ ++ _))].
  unfold boundary, ahead. simpl.
  rewrite andb_false_r, orb_false_r. intros H.
  apply orb_true_iff in H. destruct H as [H | H]; [|now rewrite H, orb_true_r].
  apply orb_true_iff in H. destruct H as [H | H];
    rewrite H, ?orb_true_r; reflexivity.
Qed.

Lemma solid_in_alone w : forall prev tail,
  solid_in prev w tail = true -> solid prev w = true.
Proof.
  induction w as [|c w IH]; intros prev tail H; [reflexivity|].
  simpl in *.
  apply andb_true_iff in H. destruct H as [H Hw].
  apply andb_true_iff in H. destruct H as [Hc Hb].
  rewrite Hc, (IH _ _ Hw), andb_true_r. simpl.
  destruct (boundary prev (c :: w)) eqn:E; [|reflexivity].
  apply (boundary_mono prev c w tail) in E.
  rewrite E in Hb. discriminate.
Qed.

Lemma solid_in_snoc w : forall prev c tail,
  solid_in prev w (c :: tail) = true ->
  is_alnum c = true ->
  boundary (last (map Some w) prev) (c :: tail) = false ->
  solid_in prev (w ++ [c]) tail = true.
Proof.
  induction w as [|x w IH]; intros prev c tail Hw Hc Hb.
  - simpl in *. now rewrite Hc, Hb.
  - simpl in Hw.
    apply andb_true_iff in Hw. destruct Hw as [H Hw].
    change (map Some (x :: w)) with (Some x :: map Some w) in Hb.
    rewrite last_cons in Hb.
    simpl. rewrite <- app_assoc. simpl. rewrite H. simpl.
    now apply IH.
Qed.

Lemma scan_atomic rest : forall prev cur,
  match cur with
  | [] => True
  | c0 :: w =>
      is_alnum c0 = true /\ solid_in (Some c0) w rest = true
      /\ prev = last (map Some w) (Some c0)
  end ->
  Forall (fun w => stable w = true) (scan prev cur rest).
Proof.
  assert (Hemit : forall cur tail ws,
             match cur with
             | [] => True
             | c0 :: w => is_alnum c0 = true /\ solid_in (Some c0) w tail = true
             end ->
             Forall (fun w => stable w = true) ws ->
             Forall (fun w => stable w = true) (emit cur ws)).
  { intros [|c0 w] tail ws H Hws; simpl; [assumption|].
    destruct H as [Hc Hs]. constructor; [|assumption].
    simpl. now rewrite Hc, (solid_in_alone w _ tail Hs). }
  induction rest as [|c rest IH]; intros prev cur Hcur.
  - simpl. apply (Hemit cur []); [|constructor].
    destruct cur; [exact I | tauto].
  - simpl. destruct (is_alnum c) eqn:Hc.
    + destruct (boundary prev (c :: rest)) eqn:Hb.
      * apply (Hemit cur (c :: rest)); [destruct cur; [exact I | tauto]|].
        apply IH. now repeat split.
      * apply IH. destruct cur as [|c0 w].
        -- now repeat split.
        -- destruct Hcur as (Hc0 & Hs & ->).
           simpl app. split; [assumption|]. split.
           ++ now apply solid_in_snoc.
           ++ rewrite map_app. simpl map. now rewrite last_last.
    + apply (Hemit cur (c :: rest)); [destruct cur; [exact I | tauto]|].
      apply IH. exact I.
Qed.

Lemma extract_atomic s :
  Forall (fun w => extractWords (JString w) = [w]) (extractWords (JString s)).
Proof.
  rewrite (extractWords_scan s).
  eapply Forall_impl; [|apply (scan_atomic s None []); exact I].
  intros w Hw. now apply stable_single.
Qed.

(** X18.  Tokens are atomic: extracting the words of a token of
    [extractWords] gives that token alone, so extracting twice, token by
    token, changes nothing. *)
Theorem extractWords_atomic (s : jsstring) :
  Forall (fun w => extractWords (JString w) = [w]) (extractWords (JString s))
  /\ flat_map (fun w => extractWords (JString w)) (extractWords (JString s))
     = extractWords (JString s).
Proof.
  pose proof (extract_atomic s) as H. split; [exact H|].
  revert H. generalize (extractWords (JString s)) as ws.
  induction 1 as [|w ws Hw _ IH]; [reflexivity|].
  cbn [flat_map]. now rewrite Hw, IH.
Qed.

(** X19.  Joining the words of a string with any non-empty separator made
    of characters outside [A-Za-z0-9] and extracting again gives the same
    words. *)
Theorem extractWords_rejoin (sep s : jsstring) :
  sep <> [] ->
  Forall (fun c => is_alnum c = false) sep ->
  extractWords (JString (join sep (extractWords (JString s))))
  = extractWords (JString s).
Proof.
  intros Hne Hsep. apply extract_join; auto. apply extract_atomic.
Qed.

Lemma extractWords_rejoin_witness :
  js "/" <> []
  /\ Forall (fun c => is_alnum c = false) (js "/")
  /\ extractWords
       (JString (join (js "/") (extractWords (JString (js "getHTTPResponse2xx")))))
     = extractWords (JString (js "getHTTPResponse2xx")).
Proof.
  assert (Hne : js "/" <> []) by (vm_compute; discriminate).
  assert (Hsep : Forall (fun c => is_alnum c = false) (js "/"))
    by (repeat constructor).
  split; [exact Hne|]. split; [exact Hsep|].
  exact (extractWords_rejoin (js "/") (js "getHTTPResponse2xx") Hne Hsep).
Defined.
